(** * tree-gen base library: edges, well-formedness and serialisation

    A shallow embedding of [include/tree-base.hpp].  Node objects live in a
    heap addressed by locations; a [shared_ptr] is an optional location, a
    [weak_ptr] is an optional location that may point at a dead object.
    C++ exceptions are values of [exn] carried by the [Throw] outcome of the
    [result] monad.  Mutable reference parameters ([PointerMap &],
    [IdentifierMap &], [MapWriter &]) are threaded explicitly. *)

From stdpp Require Import gmap strings list fin_maps.
From Stdlib Require Import ZArith Lia.

Local Open Scope string_scope.
Local Open Scope list_scope.
Local Open Scope nat_scope.
Set Warnings "-register-all".

(** ** Exceptions *)

(** The exception classes of the header together with the standard classes
    they derive from. *)
Inductive exn_class : Type :=
| std_exception
| std_runtime_error
| std_logic_error
| std_out_of_range
| RuntimeError
| NotWellFormed
| OutOfRange.

Global Instance exn_class_eq_dec : EqDecision exn_class.
Proof. solve_decision. Defined.

(** [class RuntimeError : public std::runtime_error],
    [class NotWellFormed : public RuntimeError],
    [class OutOfRange : public std::out_of_range]. *)
Definition base_class (c : exn_class) : option exn_class :=
  match c with
  | std_exception => None
  | std_runtime_error => Some std_exception
  | std_logic_error => Some std_exception
  | std_out_of_range => Some std_logic_error
  | RuntimeError => Some std_runtime_error
  | NotWellFormed => Some RuntimeError
  | OutOfRange => Some std_out_of_range
  end.

Fixpoint derives_within (depth : nat) (c d : exn_class) : bool :=
  bool_decide (c = d) ||
  match depth, base_class c with
  | S depth', Some b => derives_within depth' b d
  | _, _ => false
  end.

(** [instance_of c d]: an exception object of dynamic class [c] is caught by
    a handler [catch (d &)]. *)
Definition instance_of (c d : exn_class) : bool := derives_within 3 c d.

Record exn : Type := Exn { exn_type : exn_class; what : string }.

(** ** Outcomes *)

(** [Ok a]: normal return; [Throw e]: an exception left the call; [NoFuel]:
    the fuel of a heap traversal of the embedding ran out (no library
    function produces it by itself). *)
Inductive result (A : Type) : Type :=
| Ok (a : A)
| Throw (e : exn)
| NoFuel.
Arguments Ok {A} a.
Arguments Throw {A} e.
Arguments NoFuel {A}.

Global Instance result_ret : MRet result := λ A a, Ok a.
Global Instance result_bind : MBind result := λ A B f r,
  match r with
  | Ok a => f a
  | Throw e => Throw e
  | NoFuel => NoFuel
  end.

(** [for (auto &x : xs) body(x, state)] with an exception leaving the loop. *)
Fixpoint for_each {A S : Type} (body : A → S → result S) (xs : list A) (s : S)
  : result S :=
  match xs with
  | [] => Ok s
  | x :: xs' => s' ← body x s; for_each body xs' s'
  end.

(** ** Pointers *)

Abbreviation loc := positive.

(** [std::shared_ptr<T>]: [None] is the null pointer. *)
Abbreviation shared_ptr := (option loc).
(** [std::weak_ptr<T>]: [None] was never set (or was reset). *)
Abbreviation weak_ptr := (option loc).
(** [const void *]. *)
Abbreviation raw_ptr := (option loc).

(** [shared_ptr::get]. *)
Definition get (p : shared_ptr) : raw_ptr := p.

(** ** PointerMap *)

Abbreviation PointerMap := (gmap raw_ptr nat).

(** Modelled from the spec: [PointerMap::add_raw] is declared in the header
    and defined outside it.  The header documents "Registers a node pointer
    and gives it a sequence number.  If a duplicate node is found, this
    raises a NotWellFormed"; the specification says the identity is
    registered "with the next sequence number".  The wording of the message
    is not specified. *)
Definition add_raw (map : PointerMap) (ptr : raw_ptr) (name : string)
  : result (nat * PointerMap) :=
  match map !! ptr with
  | Some _ =>
      Throw (Exn NotWellFormed ("Duplicate node of type " +:+ name +:+ " found in tree"))
  | None => Ok (size map, <[ptr := size map]> map)
  end.

(** Modelled from the spec: [PointerMap::get_raw] is declared in the header
    and defined outside it.  The header documents "Returns the sequence
    number of a previously added node.  If the node was not previously
    added, this raises a NotWellFormed".  The wording of the message is not
    specified. *)
Definition get_raw (map : PointerMap) (ptr : raw_ptr) (name : string)
  : result nat :=
  match map !! ptr with
  | Some seq => Ok seq
  | None =>
      Throw (Exn NotWellFormed ("Link to node of type " +:+ name +:+ " not found in tree"))
  end.

(** [PointerMap::add(const Maybe<T> &)] and the two overloads of
    [PointerMap::get]; the argument is the pointer the edge holds (for a
    link: the result of locking the weak pointer), [T] stands for
    [typeid(T).name()]. *)
Definition PointerMap_add (T : string) (ob_ptr : shared_ptr) (map : PointerMap)
  : result (nat * PointerMap) :=
  add_raw map (get ob_ptr) T.

Definition PointerMap_get (T : string) (ob_ptr : shared_ptr) (map : PointerMap)
  : result nat :=
  get_raw map (get ob_ptr) T.

(** ** The wire document *)

(** Modelled from the spec: the CBOR reader and writer ([tree-cbor.hpp]) are
    not part of the header; the specification treats them as "an abstract
    writer/reader of maps, arrays, strings, integers, and null".  A document
    is the tree of these values; the bit-level format is left out. *)
Inductive cbor : Type :=
| cbor_null
| cbor_int (z : Z)
| cbor_string (s : string)
| cbor_array (items : list cbor)
| cbor_map (entries : list (string * cbor)).

(** A map under construction: the entries appended so far, in order. *)
Abbreviation MapWriter := (list (string * cbor)).
(** A map being read. *)
Abbreviation MapReader := (list (string * cbor)).

Definition append_string (key value : string) (map : MapWriter) : MapWriter :=
  map ++ [(key, cbor_string value)].
Definition append_int (key : string) (value : Z) (map : MapWriter) : MapWriter :=
  map ++ [(key, cbor_int value)].
Definition append_null (key : string) (map : MapWriter) : MapWriter :=
  map ++ [(key, cbor_null)].
Definition append_array (key : string) (items : list cbor) (map : MapWriter)
  : MapWriter :=
  map ++ [(key, cbor_array items)].

(** [MapReader::at]: a missing key raises. *)
Fixpoint MapReader_at (map : MapReader) (key : string) : result cbor :=
  match map with
  | [] => Throw (Exn std_out_of_range "map::at")
  | (k, v) :: map' => if bool_decide (k = key) then Ok v else MapReader_at map' key
  end.

Definition unexpected_type : exn := Exn std_runtime_error "unexpected value type".

Definition is_null (r : cbor) : bool :=
  match r with cbor_null => true | _ => false end.
Definition as_string (r : cbor) : result string :=
  match r with cbor_string s => Ok s | _ => Throw unexpected_type end.
Definition as_int (r : cbor) : result Z :=
  match r with cbor_int z => Ok z | _ => Throw unexpected_type end.
Definition as_array (r : cbor) : result (list cbor) :=
  match r with cbor_array l => Ok l | _ => Throw unexpected_type end.
Definition as_map (r : cbor) : result MapReader :=
  match r with cbor_map m => Ok m | _ => Throw unexpected_type end.

(** ** Integer conversions *)

(** [size_t] is taken to be 64 bits wide; [signed_size_t] is its signed
    counterpart. *)
Definition size_t_bits : Z := 64.
(** [(size_t)z] for a signed integer [z]. *)
Definition to_size_t (z : Z) : Z := z mod 2 ^ size_t_bits.
Definition signed_size_t_range (z : Z) : Prop :=
  (- 2 ^ (size_t_bits - 1) ≤ z < 2 ^ (size_t_bits - 1))%Z.

(** ** Edge objects *)

(** [Maybe<T>]: the data member [val].  [One<T>] derives from [Maybe<T>] and
    adds no member; which of the two classes an object has decides its
    virtual functions and is known wherever an edge is used. *)
Record Maybe : Type := mk_Maybe { Maybe_val : shared_ptr }.
Abbreviation One := Maybe.

(** [Any<T>]: the data member [vec], a [std::vector<One<T>>].  [Many<T>]
    derives from it and adds no member. *)
Record Any : Type := mk_Any { Any_vec : list One }.
Abbreviation Many := Any.

(** [OptLink<T>]: the data member [val], a weak pointer.  [Link<T>] derives
    from it and adds no member. *)
Record OptLink : Type := mk_OptLink { OptLink_val : weak_ptr }.
Abbreviation Link := OptLink.

Global Instance Maybe_eq_dec : EqDecision Maybe.
Proof. solve_decision. Defined.

(** ** IdentifierMap *)

(** [nodes] maps a [size_t] identifier to a [shared_ptr<void>]; [links] is
    the vector of (reference to a link object, identifier) pairs. *)
Record IdentifierMap (link_ref : Type) : Type := mk_IdentifierMap {
  nodes : gmap Z shared_ptr;
  links : list (link_ref * Z)
}.
Arguments mk_IdentifierMap {link_ref} nodes links.
Arguments nodes {link_ref} _.
Arguments links {link_ref} _.

(** [IdentifierMap ids{}]. *)
Definition IdentifierMap_new {link_ref : Type} : IdentifierMap link_ref :=
  mk_IdentifierMap ∅ [].

(** Modelled from the spec: [IdentifierMap::register_node] is declared in
    the header and defined outside it: "Each instantiated node is registered
    in the identifier map under the sequence number recorded for it". *)
Definition register_node {link_ref : Type} (identifier : Z) (ptr : shared_ptr)
    (ids : IdentifierMap link_ref) : IdentifierMap link_ref :=
  mk_IdentifierMap (<[identifier := ptr]> (nodes ids)) (links ids).

(** Modelled from the spec: [IdentifierMap::register_link] is declared in
    the header and defined outside it: "each such edge and its target id are
    appended to a pending list". *)
Definition register_link {link_ref : Type} (link : link_ref) (identifier : Z)
    (ids : IdentifierMap link_ref) : IdentifierMap link_ref :=
  mk_IdentifierMap (nodes ids) (links ids ++ [(link, identifier)]).

(** ** What the edges require of the node types *)

(** The edge templates call into their element type [T]: the virtual
    functions of [Completable] that every node overrides, and the
    serialisation, deserialisation and equality members that the generator
    emits for each node type.  [heap] is the store the node objects live in;
    [link_ref] is a reference to a link object inside a node
    ([LinkBase &]). *)
Class NodeOps (heap link_ref : Type) : Type := {
  (** some [shared_ptr] still owns the object *)
  alive : heap → loc → bool;
  (** [val->find_reachable(map)] *)
  node_find_reachable : heap → loc → PointerMap → result PointerMap;
  (** [val->check_complete(map)] *)
  node_check_complete : heap → loc → PointerMap → result ();
  (** [val->serialize(map, ids)] *)
  node_serialize : heap → loc → MapWriter → PointerMap → result MapWriter;
  (** [T::deserialize(map, ids)], [T] given by its name *)
  node_deserialize : string → MapReader → heap * IdentifierMap link_ref →
                     result (shared_ptr * (heap * IdentifierMap link_ref));
  (** [*val == *rhs] *)
  node_equals : heap → loc → loc → result bool;
  (** assignment to the [val] member of the link object behind a reference *)
  link_store : heap → link_ref → weak_ptr → heap
}.

(** The [Completable] interface of an object: its two virtual functions. *)
Record Completable : Type := mk_Completable {
  find_reachable : PointerMap → result PointerMap;
  check_complete : PointerMap → result ()
}.

(** Modelled from the spec: [Completable::check_well_formed] is declared
    [final] in the header and defined outside it: "check_well_formed()
    composes both phases and propagates any structural error". *)
Definition check_well_formed (c : Completable) : result () :=
  map ← find_reachable c ∅;
  check_complete c map.

(** Modelled from the spec: [Completable::is_well_formed] is declared
    [final] in the header and defined outside it: it "performs the same
    check but converts a failure into a boolean false rather than
    propagating it"; the failure meant is the well-formedness error. *)
Definition is_well_formed (c : Completable) : result bool :=
  match check_well_formed c with
  | Ok _ => Ok true
  | Throw e => if instance_of (exn_type e) NotWellFormed then Ok false else Throw e
  | NoFuel => NoFuel
  end.

(** ** Maybe and One: members that do not look into the node *)

(** [Maybe()] and [One()]: "Constructor for an empty (invalid) node". *)
Definition Maybe_new : Maybe := mk_Maybe None.
Definition One_new : One := mk_Maybe None.

(** [Maybe(const std::shared_ptr<S> &value)] and [One(...)] alike. *)
Definition Maybe_of_ptr (value : shared_ptr) : Maybe := mk_Maybe value.

(** [set]: every overload stores the pointer it is given. *)
Definition Maybe_set (self : Maybe) (value : shared_ptr) : Maybe := mk_Maybe value.

Definition Maybe_reset (self : Maybe) : Maybe := mk_Maybe None.

Definition Maybe_empty (self : Maybe) : bool := bool_decide (Maybe_val self = None).

Definition Maybe_size (self : Maybe) : nat :=
  match Maybe_val self with Some _ => 1 | None => 0 end.

Definition Maybe_get_ptr (self : Maybe) : shared_ptr := Maybe_val self.

(** [deref]: the object pointed at, by its location. *)
Definition Maybe_deref (T : string) (self : Maybe) : result loc :=
  match Maybe_val self with
  | None => Throw (Exn OutOfRange ("dereferencing empty Maybe/One object or type " +:+ T))
  | Some p => Ok p
  end.

Definition Maybe_serdes_edge_type : string := "?".
Definition One_serdes_edge_type : string := "1".

(** ** Any and Many: the container members *)

(** [std::vector::emplace(cbegin() + pos, x)]. *)
Definition vector_emplace {A : Type} (v : list A) (pos : nat) (x : A) : list A :=
  take pos v ++ x :: drop pos v.

(** [std::vector::erase(cbegin() + pos)]. *)
Definition vector_erase {A : Type} (v : list A) (pos : nat) : list A :=
  delete pos v.

(** [std::vector::at]. *)
Definition vector_at {A : Type} (v : list A) (index : nat) : result A :=
  match v !! index with
  | Some x => Ok x
  | None => Throw (Exn std_out_of_range "vector::at")
  end.

Definition Any_new : Any := mk_Any [].
Definition Many_new : Many := mk_Any [].

Definition Any_size (self : Any) : nat := length (Any_vec self).

Definition Any_empty (self : Any) : bool := bool_decide (Any_vec self = []).

(** [add(const Maybe<S> &ob, signed_size_t pos = -1)]. *)
Definition Any_add (self : Any) (ob : Maybe) (pos : Z) : Any :=
  if Maybe_empty ob then self
  else if (pos <? 0)%Z || (Z.of_nat (Any_size self) <=? to_size_t pos)%Z then
    mk_Any (Any_vec self ++ [Maybe_of_ptr (Maybe_get_ptr ob)])
  else
    mk_Any (vector_emplace (Any_vec self) (Z.to_nat pos) (Maybe_of_ptr (Maybe_get_ptr ob))).

Definition Any_extend (self other : Any) : Any :=
  mk_Any (Any_vec self ++ Any_vec other).

(** [remove(signed_size_t pos = -1)]. *)
Definition Any_remove (self : Any) (pos : Z) : Any :=
  if bool_decide (Any_size self = 0) then self
  else
    let pos :=
      if (pos <? 0)%Z || (Z.of_nat (Any_size self) <=? to_size_t pos)%Z
      then (Z.of_nat (Any_size self) - 1)%Z else pos in
    mk_Any (vector_erase (Any_vec self) (Z.to_nat pos)).

Definition Any_reset (self : Any) : Any := mk_Any [].

Definition Any_at (self : Any) (index : nat) : result One :=
  vector_at (Any_vec self) index.

Definition Any_front (self : Any) : Maybe :=
  match Any_vec self with
  | [] => Maybe_new
  | x :: _ => x
  end.

Definition Any_back (self : Any) : Maybe :=
  match last (Any_vec self) with
  | None => Maybe_new
  | Some x => x
  end.

Definition Any_serdes_edge_type : string := "*".
Definition Many_serdes_edge_type : string := "+".

(** ** OptLink and Link: members that do not look at the heap *)

Definition OptLink_new : OptLink := mk_OptLink None.
Definition Link_new : Link := mk_OptLink None.

(** [set(const Maybe<S> &value)]. *)
Definition OptLink_set (self : OptLink) (value : Maybe) : OptLink :=
  mk_OptLink (Maybe_get_ptr value).

Definition OptLink_reset (self : OptLink) : OptLink := mk_OptLink None.

(** [set_void_ptr(const std::shared_ptr<void> &ptr)]. *)
Definition OptLink_set_void_ptr (self : OptLink) (ptr : shared_ptr) : OptLink :=
  mk_OptLink ptr.

Definition OptLink_serdes_edge_type : string := "@".
Definition Link_serdes_edge_type : string := "$".

(** The exception of the three [deserialize] members. *)
Definition schema_error : exn :=
  Exn RuntimeError "Schema validation failed: unexpected edge type".

(** ** Members that call into the node type *)

Section Edges.
Context {heap link_ref : Type} `{!NodeOps heap link_ref}.

(** *** Weak pointers *)

Definition expired (h : heap) (w : weak_ptr) : bool :=
  match w with
  | None => true
  | Some p => negb (alive h p)
  end.

Definition lock (h : heap) (w : weak_ptr) : shared_ptr :=
  if expired h w then None else w.

(** *** Maybe and One *)

(** [operator==]. *)
Definition Maybe_equal (h : heap) (self rhs : Maybe) : result bool :=
  match Maybe_val self, Maybe_get_ptr rhs with
  | Some p, Some q =>
      if bool_decide (p = q) then Ok true else node_equals h p q
  | l, r => Ok (bool_decide (l = r))
  end.

Definition Maybe_find_reachable (T : string) (h : heap) (self : Maybe)
    (map : PointerMap) : result PointerMap :=
  match Maybe_val self with
  | Some p =>
      '(_, map) ← PointerMap_add T (Maybe_get_ptr self) map;
      node_find_reachable h p map
  | None => Ok map
  end.

Definition Maybe_check_complete (T : string) (h : heap) (self : Maybe)
    (map : PointerMap) : result () :=
  match Maybe_val self with
  | Some p => node_check_complete h p map
  | None => Ok ()
  end.

(** [One<T>::check_complete], the override. *)
Definition One_check_complete (T : string) (h : heap) (self : One)
    (map : PointerMap) : result () :=
  match Maybe_val self with
  | None => Throw (Exn NotWellFormed ("'One' edge of type " +:+ T +:+ " is empty"))
  | Some p => node_check_complete h p map
  end.

(** [Maybe<T>::serialize].  [edge_type] is the value of the virtual
    [serdes_edge_type()] for the class of the object. *)
Definition Maybe_serialize (edge_type : string) (T : string) (h : heap)
    (self : Maybe) (map : MapWriter) (ids : PointerMap) : result MapWriter :=
  let map := append_string "@T" edge_type map in
  match Maybe_val self with
  | Some p =>
      i ← PointerMap_get T (Maybe_get_ptr self) ids;
      node_serialize h p (append_int "@i" (Z.of_nat i) map) ids
  | None => Ok (append_null "@t" map)
  end.

(** [Maybe<T>::deserialize], again with the value of the virtual
    [serdes_edge_type()]. *)
Definition Maybe_deserialize (edge_type : string) (T : string) (self : Maybe)
    (map : MapReader) (st : heap * IdentifierMap link_ref)
  : result (Maybe * (heap * IdentifierMap link_ref)) :=
  tag ← MapReader_at map "@T" ≫= as_string;
  if bool_decide (tag ≠ edge_type) then Throw schema_error
  else
    type ← MapReader_at map "@t";
    if is_null type then Ok (Maybe_reset self, st)
    else
      '(val, (h, ids)) ← node_deserialize T map st;
      i ← MapReader_at map "@i" ≫= as_int;
      Ok (Maybe_set self val, (h, register_node (to_size_t i) val ids)).

(** [Maybe(const cbor::MapReader &map, IdentifierMap &ids)]. *)
Definition Maybe_of_reader (T : string) (map : MapReader)
    (st : heap * IdentifierMap link_ref) :=
  Maybe_deserialize Maybe_serdes_edge_type T Maybe_new map st.

(** [One(const cbor::MapReader &map, IdentifierMap &ids)]. *)
Definition One_of_reader (T : string) (map : MapReader)
    (st : heap * IdentifierMap link_ref) :=
  Maybe_deserialize One_serdes_edge_type T Maybe_new map st.

(** *** Any and Many *)

(** [operator==]: [vec == rhs.vec], element by element with
    [Maybe::operator==]. *)
Fixpoint vector_equal (h : heap) (l r : list One) : result bool :=
  match l, r with
  | [], [] => Ok true
  | x :: l', y :: r' =>
      b ← Maybe_equal h x y;
      if (b : bool) then vector_equal h l' r' else Ok false
  | _, _ => Ok false
  end.

Definition Any_equal (h : heap) (self rhs : Any) : result bool :=
  if bool_decide (Any_size self = Any_size rhs)
  then vector_equal h (Any_vec self) (Any_vec rhs)
  else Ok false.

Definition Any_find_reachable (T : string) (h : heap) (self : Any)
    (map : PointerMap) : result PointerMap :=
  for_each (λ sptr map, Maybe_find_reachable T h sptr map) (Any_vec self) map.

Definition Any_check_complete (T : string) (h : heap) (self : Any)
    (map : PointerMap) : result () :=
  for_each (λ sptr _, One_check_complete T h sptr map) (Any_vec self) ().

(** [Many<T>::check_complete], the override. *)
Definition Many_check_complete (T : string) (h : heap) (self : Many)
    (map : PointerMap) : result () :=
  if Any_empty self
  then Throw (Exn NotWellFormed ("'Many' edge of type " +:+ T +:+ " is empty"))
  else Any_check_complete T h self map.

Definition Any_serialize (edge_type : string) (T : string) (h : heap)
    (self : Any) (map : MapWriter) (ids : PointerMap) : result MapWriter :=
  let map := append_string "@T" edge_type map in
  ar ← for_each
         (λ sptr ar,
            submap ← Maybe_serialize One_serdes_edge_type T h sptr [] ids;
            Ok (ar ++ [cbor_map submap]))
         (Any_vec self) [];
  Ok (append_array "@d" ar map).

Definition Any_deserialize (edge_type : string) (T : string) (self : Any)
    (map : MapReader) (st : heap * IdentifierMap link_ref)
  : result (Any * (heap * IdentifierMap link_ref)) :=
  tag ← MapReader_at map "@T" ≫= as_string;
  if bool_decide (tag ≠ edge_type) then Throw schema_error
  else
    items ← MapReader_at map "@d" ≫= as_array;
    for_each
      (λ it '(self, st),
         m ← as_map it;
         '(one, st) ← One_of_reader T m st;
         Ok (mk_Any (Any_vec self ++ [one]), st))
      items (self, st).

Definition Any_of_reader (T : string) (map : MapReader)
    (st : heap * IdentifierMap link_ref) :=
  Any_deserialize Any_serdes_edge_type T Any_new map st.

Definition Many_of_reader (T : string) (map : MapReader)
    (st : heap * IdentifierMap link_ref) :=
  Any_deserialize Many_serdes_edge_type T Any_new map st.

(** *** OptLink and Link *)

Definition OptLink_empty (h : heap) (self : OptLink) : bool :=
  expired h (OptLink_val self).

Definition OptLink_size (h : heap) (self : OptLink) : nat :=
  if expired h (OptLink_val self) then 0 else 1.

Definition OptLink_get_ptr (h : heap) (self : OptLink) : shared_ptr :=
  lock h (OptLink_val self).

Definition OptLink_deref (T : string) (h : heap) (self : OptLink) : result loc :=
  match lock h (OptLink_val self) with
  | None =>
      Throw (Exn OutOfRange
               ("dereferencing empty or expired (Opt)Link object of type " +:+ T))
  | Some p => Ok p
  end.

(** [operator==]. *)
Definition OptLink_equal (h : heap) (self rhs : OptLink) : bool :=
  bool_decide (OptLink_get_ptr h self = OptLink_get_ptr h rhs).

Definition OptLink_find_reachable (T : string) (h : heap) (self : OptLink)
    (map : PointerMap) : result PointerMap :=
  Ok map.

Definition OptLink_check_complete (T : string) (h : heap) (self : OptLink)
    (map : PointerMap) : result () :=
  if negb (OptLink_empty h self)
  then _ ← PointerMap_get T (OptLink_get_ptr h self) map; Ok ()
  else Ok ().

(** [Link<T>::check_complete], the override. *)
Definition Link_check_complete (T : string) (h : heap) (self : Link)
    (map : PointerMap) : result () :=
  if OptLink_empty h self
  then Throw (Exn NotWellFormed ("'Link' edge of type " +:+ T +:+ " is empty"))
  else _ ← PointerMap_get T (OptLink_get_ptr h self) map; Ok ().

Definition OptLink_serialize (edge_type : string) (T : string) (h : heap)
    (self : OptLink) (map : MapWriter) (ids : PointerMap) : result MapWriter :=
  let map := append_string "@T" edge_type map in
  l ← PointerMap_get T (OptLink_get_ptr h self) ids;
  Ok (append_int "@l" (Z.of_nat l) map).

(** [OptLink<T>::deserialize]; the identifier map is not used. *)
Definition OptLink_deserialize (edge_type : string) (T : string)
    (self : OptLink) (map : MapReader) (st : heap * IdentifierMap link_ref)
  : result (OptLink * (heap * IdentifierMap link_ref)) :=
  tag ← MapReader_at map "@T" ≫= as_string;
  if bool_decide (tag ≠ edge_type) then Throw schema_error
  else Ok (OptLink_reset self, st).

Definition OptLink_of_reader (T : string) (map : MapReader)
    (st : heap * IdentifierMap link_ref) :=
  OptLink_deserialize OptLink_serdes_edge_type T OptLink_new map st.

Definition Link_of_reader (T : string) (map : MapReader)
    (st : heap * IdentifierMap link_ref) :=
  OptLink_deserialize Link_serdes_edge_type T OptLink_new map st.

(** *** The edges as [Completable] objects *)

Definition Maybe_Completable (T : string) (h : heap) (self : Maybe) : Completable :=
  mk_Completable (Maybe_find_reachable T h self) (Maybe_check_complete T h self).
Definition One_Completable (T : string) (h : heap) (self : One) : Completable :=
  mk_Completable (Maybe_find_reachable T h self) (One_check_complete T h self).
Definition Any_Completable (T : string) (h : heap) (self : Any) : Completable :=
  mk_Completable (Any_find_reachable T h self) (Any_check_complete T h self).
Definition Many_Completable (T : string) (h : heap) (self : Many) : Completable :=
  mk_Completable (Any_find_reachable T h self) (Many_check_complete T h self).
Definition OptLink_Completable (T : string) (h : heap) (self : OptLink) : Completable :=
  mk_Completable (OptLink_find_reachable T h self) (OptLink_check_complete T h self).
Definition Link_Completable (T : string) (h : heap) (self : Link) : Completable :=
  mk_Completable (OptLink_find_reachable T h self) (Link_check_complete T h self).

(** *** Entry points *)

(** Modelled from the spec: [IdentifierMap::restore_links] is declared in
    the header and defined outside it: "a single resolution pass iterates
    the pending list, looks up each target id in the identifier map, and
    injects the resolved node reference into the corresponding edge.  A
    missing id at this stage is a structural error". *)
Definition restore_links (ids : IdentifierMap link_ref) (h : heap) : result heap :=
  for_each
    (λ '(link, identifier) h,
       match nodes ids !! identifier with
       | Some ptr => Ok (link_store h link ptr)
       | None => Throw (Exn NotWellFormed "link to unknown node identifier")
       end)
    (links ids) h.

(** [serialize(const Maybe<T> tree, std::ostream &stream)]; the result is
    the document written to the stream. *)
Definition serialize (T : string) (h : heap) (tree : Maybe) : result cbor :=
  ids ← Maybe_find_reachable T h tree ∅;
  _ ← Maybe_check_complete T h tree ids;
  map ← Maybe_serialize Maybe_serdes_edge_type T h tree [] ids;
  Ok (cbor_map map).

(** The stages of [deserialize(const std::string &cbor)], in the order of
    its statements. *)
Definition deserialize_decode (T : string) (h : heap) (reader : cbor)
  : result (Maybe * (heap * IdentifierMap link_ref)) :=
  map ← as_map reader;
  Maybe_of_reader T map (h, IdentifierMap_new).

Definition deserialize (T : string) (h : heap) (reader : cbor)
  : result (Maybe * heap) :=
  '(tree, (h, ids)) ← deserialize_decode T h reader;
  h ← restore_links ids h;
  _ ← check_well_formed (Maybe_Completable T h tree);
  Ok (tree, h).

End Edges.

(** ** Node objects *)

(** An edge member of a node together with its class and the name of its
    element type [T]. *)
Inductive edge : Type :=
| Maybe_edge (T : string) (e : Maybe)
| One_edge (T : string) (e : One)
| Any_edge (T : string) (e : Any)
| Many_edge (T : string) (e : Many)
| OptLink_edge (T : string) (e : OptLink)
| Link_edge (T : string) (e : Link).

(** Modelled from the spec: the node classes are emitted by the generator
    and are not part of the header.  The specification gives a node as "an
    opaque unit of tree content" that implements reachability registration,
    completeness checking, equality and the (de)serialisation "of its own
    fields".  A node object is the name of its class and its edge members,
    in declaration order. *)
Record Node : Type := mk_Node {
  Node_type : string;
  Node_fields : list (string * edge)
}.

Global Instance Node_inhabited : Inhabited Node := populate (mk_Node "" []).

(** The store of node objects.  An object is in the store for as long as it
    is owned. *)
Abbreviation object_heap := (gmap loc Node).

(** A link object is found by the node that holds it and the name of the
    member. *)
Abbreviation member_ref := (loc * string)%type.

(** The declaration of an edge member: class and element type. *)
Inductive edge_class : Type :=
| Maybe_class | One_class | Any_class | Many_class | OptLink_class | Link_class.

Abbreviation node_schema := (string → option (list (string * (edge_class * string)))).

Section NodeMembers.
Context `{!NodeOps object_heap member_ref}.

Definition edge_find_reachable (h : object_heap) (e : edge) (map : PointerMap)
  : result PointerMap :=
  match e with
  | Maybe_edge T e | One_edge T e => Maybe_find_reachable T h e map
  | Any_edge T e | Many_edge T e => Any_find_reachable T h e map
  | OptLink_edge T e | Link_edge T e => OptLink_find_reachable T h e map
  end.

Definition edge_check_complete (h : object_heap) (e : edge) (map : PointerMap)
  : result () :=
  match e with
  | Maybe_edge T e => Maybe_check_complete T h e map
  | One_edge T e => One_check_complete T h e map
  | Any_edge T e => Any_check_complete T h e map
  | Many_edge T e => Many_check_complete T h e map
  | OptLink_edge T e => OptLink_check_complete T h e map
  | Link_edge T e => Link_check_complete T h e map
  end.

Definition edge_serialize (h : object_heap) (e : edge) (map : MapWriter)
    (ids : PointerMap) : result MapWriter :=
  match e with
  | Maybe_edge T e => Maybe_serialize Maybe_serdes_edge_type T h e map ids
  | One_edge T e => Maybe_serialize One_serdes_edge_type T h e map ids
  | Any_edge T e => Any_serialize Any_serdes_edge_type T h e map ids
  | Many_edge T e => Any_serialize Many_serdes_edge_type T h e map ids
  | OptLink_edge T e => OptLink_serialize OptLink_serdes_edge_type T h e map ids
  | Link_edge T e => OptLink_serialize Link_serdes_edge_type T h e map ids
  end.

Definition edge_equal (h : object_heap) (l r : edge) : result bool :=
  match l, r with
  | Maybe_edge _ l, Maybe_edge _ r | One_edge _ l, One_edge _ r => Maybe_equal h l r
  | Any_edge _ l, Any_edge _ r | Many_edge _ l, Many_edge _ r => Any_equal h l r
  | OptLink_edge _ l, OptLink_edge _ r | Link_edge _ l, Link_edge _ r =>
      Ok (OptLink_equal h l r)
  | _, _ => Ok false
  end.

Definition edge_of_reader (decl : edge_class * string) (map : MapReader)
    (st : object_heap * IdentifierMap member_ref)
  : result (edge * (object_heap * IdentifierMap member_ref)) :=
  match decl with
  | (Maybe_class, T) => '(e, st) ← Maybe_of_reader T map st; Ok (Maybe_edge T e, st)
  | (One_class, T) => '(e, st) ← One_of_reader T map st; Ok (One_edge T e, st)
  | (Any_class, T) => '(e, st) ← Any_of_reader T map st; Ok (Any_edge T e, st)
  | (Many_class, T) => '(e, st) ← Many_of_reader T map st; Ok (Many_edge T e, st)
  | (OptLink_class, T) => '(e, st) ← OptLink_of_reader T map st; Ok (OptLink_edge T e, st)
  | (Link_class, T) => '(e, st) ← Link_of_reader T map st; Ok (Link_edge T e, st)
  end.

End NodeMembers.

(** The pending-list entry of a link member: registered when the encoded
    edge carries a target. *)
Definition register_member_link (p : loc) (map : MapReader)
    (member : string * (edge_class * string)) (ids : IdentifierMap member_ref)
  : result (IdentifierMap member_ref) :=
  match member with
  | (name, (OptLink_class, _)) | (name, (Link_class, _)) =>
      sub ← MapReader_at map name ≫= as_map;
      match MapReader_at sub "@l" with
      | Ok target =>
          if is_null target then Ok ids
          else l ← as_int target; Ok (register_link (p, name) (to_size_t l) ids)
      | _ => Ok ids
      end
  | _ => Ok ids
  end.

(** Storing into the [val] member of a link member of a node. *)
Definition store_member (name : string) (ptr : weak_ptr)
    (member : string * edge) : string * edge :=
  if bool_decide (member.1 = name) then
    match member.2 with
    | OptLink_edge T e => (member.1, OptLink_edge T (OptLink_set_void_ptr e ptr))
    | Link_edge T e => (member.1, Link_edge T (OptLink_set_void_ptr e ptr))
    | _ => member
    end
  else member.

Definition heap_link_store (h : object_heap) (link : member_ref) (ptr : weak_ptr) : object_heap :=
  match h !! link.1 with
  | Some n =>
      <[link.1 := mk_Node (Node_type n) (store_member link.2 ptr <$> Node_fields n)]> h
  | None => h
  end.

(** Modelled from the spec: the members the generator emits for a node
    class, one uniform definition for all classes.  Each member function
    applies the member function of the same name to the edge members in
    declaration order; [serialize] first writes the class name under ["@t"]
    and gives each edge a map of its own under the member name;
    [deserialize] reads the class name, builds the edge members from their
    maps (children before the node itself), allocates the node and queues
    its link members.  [fuel] bounds the depth of the calls from node to
    node; a pointer to a dead object is read as a node without members. *)
Fixpoint generic_node (schema : node_schema) (fuel : nat) : NodeOps object_heap member_ref :=
  match fuel with
  | 0 =>
      {| alive h p := bool_decide (is_Some (h !! p));
         node_find_reachable _ _ _ := NoFuel;
         node_check_complete _ _ _ := NoFuel;
         node_serialize _ _ _ _ := NoFuel;
         node_deserialize _ _ _ := NoFuel;
         node_equals _ _ _ := NoFuel;
         link_store := heap_link_store |}
  | S fuel' =>
      let ops := generic_node schema fuel' in
      {| alive h p := bool_decide (is_Some (h !! p));
         node_find_reachable h p map :=
           for_each (λ member map, edge_find_reachable (NodeOps0 := ops) h member.2 map)
                    (Node_fields (h !!! p)) map;
         node_check_complete h p map :=
           for_each (λ member _, edge_check_complete (NodeOps0 := ops) h member.2 map)
                    (Node_fields (h !!! p)) ();
         node_serialize h p map ids :=
           for_each
             (λ member map,
                submap ← edge_serialize (NodeOps0 := ops) h member.2 [] ids;
                Ok (map ++ [(member.1, cbor_map submap)]))
             (Node_fields (h !!! p))
             (append_string "@t" (Node_type (h !!! p)) map);
         node_deserialize T map st :=
           type ← MapReader_at map "@t" ≫= as_string;
           match schema type with
           | None => Throw (Exn RuntimeError "Schema validation failed: unexpected node type")
           | Some members =>
               '(fields, (h, ids)) ←
                 for_each
                   (λ member '(fields, st),
                      sub ← MapReader_at map member.1 ≫= as_map;
                      '(e, st) ← edge_of_reader (NodeOps0 := ops) member.2 sub st;
                      Ok (fields ++ [(member.1, e)], st))
                   members ([], st);
               let p := fresh (dom h) in
               ids ← for_each (register_member_link p map) members ids;
               Ok (Some p, (<[p := mk_Node type fields]> h, ids))
           end;
         node_equals h p q :=
           if bool_decide (Node_type (h !!! p) = Node_type (h !!! q)) then
             (fix members_equal (l r : list (string * edge)) : result bool :=
                match l, r with
                | [], [] => Ok true
                | x :: l', y :: r' =>
                    b ← edge_equal (NodeOps0 := ops) h x.2 y.2;
                    if (b : bool) then members_equal l' r' else Ok false
                | _, _ => Ok false
                end) (Node_fields (h !!! p)) (Node_fields (h !!! q))
           else Ok false;
         link_store := heap_link_store |}
  end.

(** ** A small tree *)

(** Four node classes: a root owning a one-or-more sequence of items, an
    item with an optional link to a root, a leaf without members, and a box
    with exactly one leaf. *)
Definition example_schema : node_schema := λ type,
  if bool_decide (type = "Root") then Some [("items", (Many_class, "Item"))]
  else if bool_decide (type = "Item") then Some [("owner", (OptLink_class, "Root"))]
  else if bool_decide (type = "Leaf") then Some []
  else if bool_decide (type = "Box") then Some [("content", (One_class, "Leaf"))]
  else None.

Definition Root_node (items : list One) : Node :=
  mk_Node "Root" [("items", Many_edge "Item" (mk_Any items))].
Definition Item_node (owner : weak_ptr) : Node :=
  mk_Node "Item" [("owner", OptLink_edge "Root" (mk_OptLink owner))].
Definition Leaf_node : Node := mk_Node "Leaf" [].
Definition Box_node (content : One) : Node :=
  mk_Node "Box" [("content", One_edge "Leaf" content)].

Definition loc_R : loc := 1%positive.
Definition loc_A : loc := 2%positive.
Definition loc_B : loc := 3%positive.

Definition example_root : Maybe := mk_Maybe (Some loc_R).

(** The root owns [A, B]; [A] links back to the root, [B] is a leaf. *)
Definition scenario_heap : object_heap :=
  <[loc_R := Root_node [mk_Maybe (Some loc_A); mk_Maybe (Some loc_B)]]>
    (<[loc_A := Item_node (Some loc_R)]> (<[loc_B := Leaf_node]> ∅)).

(** The same tree with an item [B] whose optional link is not set. *)
Definition unset_link_heap : object_heap :=
  <[loc_R := Root_node [mk_Maybe (Some loc_A); mk_Maybe (Some loc_B)]]>
    (<[loc_A := Item_node (Some loc_R)]> (<[loc_B := Item_node None]> ∅)).

(** The sequence numbers of that tree. *)
Definition unset_link_ids : PointerMap :=
  <[Some loc_B := 2]> (<[Some loc_A := 1]> (<[Some loc_R := 0]> ∅)).

(** The root owns [A]; [A] is a box that was built without its content. *)
Definition incomplete_heap : object_heap :=
  <[loc_R := Root_node [mk_Maybe (Some loc_A)]]> (<[loc_A := Box_node One_new]> ∅).

(** A sequence whose stored references are all non-empty. *)
Definition all_filled (self : Any) : Prop :=
  Forall (λ x, Maybe_empty x = false) (Any_vec self).

(** A series of [add] calls, first call first. *)
Definition Any_add_all (self : Any) (calls : list (Maybe * Z)) : Any :=
  foldl (λ self call, Any_add self call.1 call.2) self calls.

(** The document of the scenario tree. *)
Definition scenario_document : cbor :=
  cbor_map
    [("@T", cbor_string "?"); ("@i", cbor_int 0); ("@t", cbor_string "Root");
     ("items",
      cbor_map
        [("@T", cbor_string "+");
         ("@d",
          cbor_array
            [cbor_map
               [("@T", cbor_string "1"); ("@i", cbor_int 1);
                ("@t", cbor_string "Item");
                ("owner", cbor_map [("@T", cbor_string "@"); ("@l", cbor_int 0)])];
             cbor_map
               [("@T", cbor_string "1"); ("@i", cbor_int 2);
                ("@t", cbor_string "Leaf")]])])].

(** A root edge encoded with the tag of an exactly-one edge. *)
Definition wrong_tag_document : cbor :=
  cbor_map [("@T", cbor_string "1"); ("@t", cbor_null)].

(** A tree whose only link names an identifier that no node carries. *)
Definition unknown_link_document : cbor :=
  cbor_map
    [("@T", cbor_string "?"); ("@i", cbor_int 0); ("@t", cbor_string "Root");
     ("items",
      cbor_map
        [("@T", cbor_string "+");
         ("@d",
          cbor_array
            [cbor_map
               [("@T", cbor_string "1"); ("@i", cbor_int 1);
                ("@t", cbor_string "Item");
                ("owner", cbor_map [("@T", cbor_string "@"); ("@l", cbor_int 7)])]])])].

(** A root whose one-or-more sequence is empty. *)
Definition empty_items_document : cbor :=
  cbor_map
    [("@T", cbor_string "?"); ("@i", cbor_int 0); ("@t", cbor_string "Root");
     ("items", cbor_map [("@T", cbor_string "+"); ("@d", cbor_array [])])].

(** ** Depth-first pre-order, as the specification words it *)

(** The nodes an edge owns, in order; a link owns nothing. *)
Definition edge_owned (e : edge) : list loc :=
  match e with
  | Maybe_edge _ m | One_edge _ m => option_list (Maybe_val m)
  | Any_edge _ a | Many_edge _ a => omap Maybe_val (Any_vec a)
  | OptLink_edge _ _ | Link_edge _ _ => []
  end.

(** The nodes a node owns through its edge members, in declaration order. *)
Definition node_owned (h : object_heap) (p : loc) : list loc :=
  flat_map (λ member : string * edge, edge_owned member.2) (Node_fields (h !!! p)).

(** [dfs_preorder h p order]: [order] lists [p] first and then, for each
    node that [p] owns, the pre-order listing of that node. *)
Inductive dfs_preorder (h : object_heap) : loc → list loc → Prop :=
| dfs_visit (p : loc) (subs : list (list loc)) :
    Forall2 (dfs_preorder h) (node_owned h p) subs →
    dfs_preorder h p (p :: concat subs).

(** [numbering order map]: [map] gives each node of [order] its index, and
    registers nothing else. *)
Definition numbering (order : list loc) (map : PointerMap) : Prop :=
  NoDup order ∧ map !! None = None ∧ size map = length order ∧
  ∀ q i, map !! Some q = Some i ↔ order !! i = Some q.

(** The live objects that a Phase 1 map has not registered. *)
Definition unvisited (h : object_heap) (map : PointerMap) : gset loc :=
  filter (λ q, map !! Some q = None) (dom h).

(** A traversal step that, with fuel above the number of unvisited objects,
    returns or raises [NotWellFormed]; when it returns, no object has
    become unvisited again. *)
Definition settles (h : object_heap) (fuel : nat)
    (run : PointerMap → result PointerMap) : Prop :=
  ∀ m, size (unvisited h m) < fuel →
    match run m with
    | Ok m' => unvisited h m' ⊆ unvisited h m
    | Throw e => exn_type e = NotWellFormed
    | NoFuel => False
    end.

(** ** Mandatory edges left empty, anywhere below a root *)

(** [owns h p q]: the node at [p] owns the node at [q] through one of its
    edge members. *)
Definition owns (h : object_heap) (p q : loc) : Prop := q ∈ node_owned h p.

(** A [One] member that is empty, a [Many] member without elements, or a
    sequence that stores an empty [One]. *)
Definition edge_lacks (e : edge) : Prop :=
  match e with
  | One_edge _ m => Maybe_val m = None
  | Any_edge _ a => mk_Maybe None ∈ Any_vec a
  | Many_edge _ a => Any_vec a = [] ∨ mk_Maybe None ∈ Any_vec a
  | Maybe_edge _ _ | OptLink_edge _ _ | Link_edge _ _ => False
  end.

Definition node_complete (h : object_heap) (p : loc) : Prop :=
  ∀ member, member ∈ Node_fields (h !!! p) → ¬ edge_lacks member.2.

Definition subtree_complete (h : object_heap) (p : loc) : Prop :=
  ∀ q, rtc (owns h) p q → node_complete h q.

(** The outcome of a completeness check that was not cut short: it
    returns and [P] holds, or it raises [NotWellFormed]. *)
Definition verdict {A : Type} (r : result A) (P : Prop) : Prop :=
  match r with
  | Ok _ => P
  | Throw e => exn_type e = NotWellFormed
  | NoFuel => False
  end.

(** ** Links without a target, anywhere below a root *)

(** A link whose weak pointer was never set, or whose target is dead. *)
Definition link_unset (h : object_heap) (l : OptLink) : Prop :=
  match OptLink_val l with
  | None => True
  | Some p => h !! p = None
  end.

(** A link member without a target. *)
Definition edge_unlinked (h : object_heap) (e : edge) : Prop :=
  match e with
  | OptLink_edge _ l | Link_edge _ l => link_unset h l
  | _ => False
  end.

Definition node_linked (h : object_heap) (p : loc) : Prop :=
  ∀ member, member ∈ Node_fields (h !!! p) → ¬ edge_unlinked h member.2.

Definition subtree_linked (h : object_heap) (p : loc) : Prop :=
  ∀ q, rtc (owns h) p q → node_linked h q.

(** ** Statements about the traversals of whole trees *)

(** A traversal that starts from the numbering of [acc] and succeeds ends
    in the numbering of [acc] followed by the pre-order listings of the
    given targets. *)
Definition extends_preorder (h : object_heap) (targets : list loc)
    (run : PointerMap → result PointerMap) : Prop :=
  ∀ acc m m', numbering acc m → run m = Ok m' →
    ∃ subs, Forall2 (dfs_preorder h) targets subs ∧ numbering (acc ++ concat subs) m'.

Definition node_extends_preorder (schema : node_schema) (h : object_heap)
    (fuel : nat) : Prop :=
  ∀ p, extends_preorder h (node_owned h p)
         (@node_find_reachable _ _ (generic_node schema fuel) h p).

(** A node settles once it has been registered by the edge that owns it. *)
Definition node_settles (schema : node_schema) (h : object_heap) (fuel : nat) : Prop :=
  ∀ q m, m !! Some q = None → size (unvisited h m) < fuel →
    match @node_find_reachable _ _ (generic_node schema fuel) h q
            (<[Some q := size m]> m) with
    | Ok m' => unvisited h m' ⊆ unvisited h m
    | Throw e => exn_type e = NotWellFormed
    | NoFuel => False
    end.

(** Where Phase 1 passed through a node, Phase 2 with the same fuel gives
    a verdict on the whole subtree. *)
Definition node_verified (schema : node_schema) (h : object_heap) (fuel : nat) : Prop :=
  ∀ p m m' mc,
    @node_find_reachable _ _ (generic_node schema fuel) h p m = Ok m' →
    verdict (@node_check_complete _ _ (generic_node schema fuel) h p mc)
            (subtree_complete h p).

(** Where Phase 1 passed through a node, the encoder with the same fuel
    and a map without the null pointer gives a verdict on the links of the
    whole subtree. *)
Definition node_encoded (schema : node_schema) (h : object_heap) (fuel : nat) : Prop :=
  ∀ p m m' w ids,
    ids !! None = None →
    @node_find_reachable _ _ (generic_node schema fuel) h p m = Ok m' →
    verdict (@node_serialize _ _ (generic_node schema fuel) h p w ids)
            (subtree_linked h p).

(** ** Further members of the sequence edges *)

(** [operator[]]: "Shorthand for at()". *)
Definition Any_index (self : Any) (index : nat) : result One := Any_at self index.

(** [add_raw(S *ob, signed_size_t pos = -1)]: the sequence takes ownership
    of the object behind the raw pointer. *)
Definition Any_add_raw (self : Any) (ob : raw_ptr) (pos : Z) : result Any :=
  match ob with
  | None => Throw (Exn RuntimeError "add_raw called with nullptr!")
  | Some _ =>
      if (pos <? 0)%Z || (Z.of_nat (Any_size self) <=? to_size_t pos)%Z then
        Ok (mk_Any (Any_vec self ++ [Maybe_of_ptr ob]))
      else
        Ok (mk_Any (vector_emplace (Any_vec self) (Z.to_nat pos) (Maybe_of_ptr ob)))
  end.

(** ** Duplication of edges *)

Section Duplication.
Context {heap : Type}.

(** [val->copy()] and [val->clone()]: members that the generator emits for
    each node class; they return a [One] to the duplicate they allocate. *)
Variable node_copy : heap → loc → result (One * heap).
Variable node_clone : heap → loc → result (One * heap).

(** [Maybe<T>::copy]. *)
Definition Maybe_copy (h : heap) (self : Maybe) : result (One * heap) :=
  match Maybe_val self with
  | Some p => node_copy h p
  | None => Ok (Maybe_new, h)
  end.

(** [Maybe<T>::clone]. *)
Definition Maybe_clone (h : heap) (self : Maybe) : result (One * heap) :=
  match Maybe_val self with
  | Some p => node_clone h p
  | None => Ok (Maybe_new, h)
  end.

(** [Any<T>::copy]: [c.add(sptr.copy())] for each element. *)
Definition Any_copy (h : heap) (self : Any) : result (Many * heap) :=
  for_each
    (λ sptr '(c, h), '(d, h) ← Maybe_copy h sptr; Ok (Any_add c d (-1), h))
    (Any_vec self) (Many_new, h).

(** [Any<T>::clone]: [c.add(sptr.clone())] for each element. *)
Definition Any_clone (h : heap) (self : Any) : result (Many * heap) :=
  for_each
    (λ sptr '(c, h), '(d, h) ← Maybe_clone h sptr; Ok (Any_add c d (-1), h))
    (Any_vec self) (Many_new, h).

End Duplication.

(** The number of non-empty references that a sequence stores. *)
Definition filled_count (vec : list One) : nat :=
  length (filter (λ x, Maybe_empty x = false) vec).

(** ** Well-formed trees, as properties of the heap *)

(** The owning edges below [root] form a tree: the pre-order listing
    exists and lists no node twice. *)
Definition tree_shaped (h : object_heap) (root : loc) : Prop :=
  ∃ order, dfs_preorder h root order ∧ NoDup order.

(** The node has a sequence number in the map. *)
Definition registered (map : PointerMap) (t : loc) : Prop :=
  is_Some (map !! Some t).

(** The link stores a pointer to one of the [known] nodes. *)
Definition link_target_in (known : loc → Prop) (l : OptLink) : Prop :=
  ∃ t, OptLink_val l = Some t ∧ known t.

(** An optional link has no target or a known one; a mandatory link has a
    known target.  Owning edges are not concerned. *)
Definition edge_resolved (h : object_heap) (known : loc → Prop) (e : edge) : Prop :=
  match e with
  | OptLink_edge _ l => link_unset h l ∨ link_target_in known l
  | Link_edge _ l => ¬ link_unset h l ∧ link_target_in known l
  | _ => True
  end.

(** No mandatory edge of the node is left empty and its links are
    resolved. *)
Definition node_sound (h : object_heap) (known : loc → Prop) (p : loc) : Prop :=
  ∀ member, member ∈ Node_fields (h !!! p) →
    ¬ edge_lacks member.2 ∧ edge_resolved h known member.2.

Definition subtree_sound (h : object_heap) (known : loc → Prop) (p : loc) : Prop :=
  ∀ q, rtc (owns h) p q → node_sound h known q.

(** The outcome of a check that was not cut short and that decides [P]:
    it returns when [P] holds and raises [NotWellFormed] when it does
    not. *)
Definition decides {A : Type} (r : result A) (P : Prop) : Prop :=
  match r with
  | Ok _ => P
  | Throw e => exn_type e = NotWellFormed ∧ ¬ P
  | NoFuel => False
  end.

(** Where Phase 1 passed through a node, Phase 2 with the same fuel
    decides whether the subtree is sound with respect to its map. *)
Definition node_decided (schema : node_schema) (h : object_heap) (fuel : nat) : Prop :=
  ∀ p m m' mc,
    @node_find_reachable _ _ (generic_node schema fuel) h p m = Ok m' →
    decides (@node_check_complete _ _ (generic_node schema fuel) h p mc)
            (subtree_sound h (registered mc) p).

(** A traversal that does not raise on targets whose pre-order listings
    repeat no node and none of the nodes numbered so far. *)
Definition follows_preorder (h : object_heap) (targets : list loc)
    (run : PointerMap → result PointerMap) : Prop :=
  ∀ acc m subs,
    numbering acc m → Forall2 (dfs_preorder h) targets subs →
    NoDup (acc ++ concat subs) →
    match run m with
    | Ok m' => numbering (acc ++ concat subs) m'
    | Throw _ => False
    | NoFuel => True
    end.

Definition node_follows_preorder (schema : node_schema) (h : object_heap)
    (fuel : nat) : Prop :=
  ∀ p, follows_preorder h (node_owned h p)
         (@node_find_reachable _ _ (generic_node schema fuel) h p).

(** ** Two ill-formed heaps *)

Definition loc_C : loc := 4%positive.

(** The root owns the boxes [A] and [B]; both boxes own the leaf [C]. *)
Definition shared_leaf_heap : object_heap :=
  <[loc_R := Root_node [mk_Maybe (Some loc_A); mk_Maybe (Some loc_B)]]>
    (<[loc_A := Box_node (mk_Maybe (Some loc_C))]>
       (<[loc_B := Box_node (mk_Maybe (Some loc_C))]> (<[loc_C := Leaf_node]> ∅))).

(** The root owns the item [A], whose link points to the leaf [B]; the
    leaf is alive and owned by no node below the root. *)
Definition foreign_link_heap : object_heap :=
  <[loc_R := Root_node [mk_Maybe (Some loc_A)]]>
    (<[loc_A := Item_node (Some loc_B)]> (<[loc_B := Leaf_node]> ∅)).

(** ** What the encoder needs *)

(** A link has a live target with a sequence number; the nodes of an
    owning edge have sequence numbers. *)
Definition edge_writable (h : object_heap) (ids : PointerMap) (e : edge) : Prop :=
  match e with
  | OptLink_edge _ l | Link_edge _ l =>
      ¬ link_unset h l ∧ link_target_in (registered ids) l
  | Maybe_edge _ _ | One_edge _ _ | Any_edge _ _ | Many_edge _ _ =>
      ∀ q, q ∈ edge_owned e → registered ids q
  end.

Definition node_writable (h : object_heap) (ids : PointerMap) (p : loc) : Prop :=
  ∀ member, member ∈ Node_fields (h !!! p) → edge_writable h ids member.2.

Definition subtree_writable (h : object_heap) (ids : PointerMap) (p : loc) : Prop :=
  ∀ q, rtc (owns h) p q → node_writable h ids q.

(** The call does not raise. *)
Definition no_throw {A : Type} (r : result A) : Prop := ∀ e, r ≠ Throw e.

Definition node_writes (schema : node_schema) (h : object_heap) (fuel : nat) : Prop :=
  ∀ p w ids, subtree_writable h ids p →
    no_throw (@node_serialize _ _ (generic_node schema fuel) h p w ids).

(** * Properties *)

(** ** Auxiliary facts *)

Lemma to_size_t_of_nonneg (z : Z) :
  signed_size_t_range z → (0 ≤ z)%Z → to_size_t z = z.
Proof.
  unfold signed_size_t_range, to_size_t, size_t_bits. intros [_ Hhi] Hlo.
  apply Z.mod_small. split; [done|].
  eapply Z.lt_trans; [exact Hhi|]. reflexivity.
Qed.

Lemma Maybe_of_ptr_get_ptr (ob : Maybe) : Maybe_of_ptr (Maybe_get_ptr ob) = ob.
Proof. by destruct ob. Qed.

Lemma Maybe_empty_true (ob : Maybe) : Maybe_empty ob = true ↔ ob = Maybe_new.
Proof.
  unfold Maybe_empty, Maybe_new. rewrite bool_decide_eq_true.
  destruct ob as [val]; simpl. split; intros H; [by subst | by inversion H].
Qed.

Lemma Maybe_empty_false (ob : Maybe) :
  Maybe_empty ob = false ↔ ∃ p, Maybe_val ob = Some p.
Proof.
  unfold Maybe_empty. rewrite bool_decide_eq_false.
  destruct (Maybe_val ob) as [p|]; split.
  - eauto.
  - intros _ ?; discriminate.
  - done.
  - intros [? ?]; discriminate.
Qed.

(** The position test of [add] and [remove]. *)
Lemma position_test_append (size : nat) (pos : Z) :
  signed_size_t_range pos →
  (pos < 0 ∨ Z.of_nat size ≤ pos)%Z →
  (pos <? 0)%Z || (Z.of_nat size <=? to_size_t pos)%Z = true.
Proof.
  intros Hr H. destruct (Z.ltb_spec pos 0) as [|Hge]; [done|]. simpl.
  rewrite to_size_t_of_nonneg by done. apply Z.leb_le. lia.
Qed.

Lemma position_test_inside (size : nat) (pos : Z) :
  signed_size_t_range pos →
  (0 ≤ pos < Z.of_nat size)%Z →
  (pos <? 0)%Z || (Z.of_nat size <=? to_size_t pos)%Z = false.
Proof.
  intros Hr [H0 H1]. rewrite to_size_t_of_nonneg by done.
  apply orb_false_iff. split; [apply Z.ltb_ge | apply Z.leb_gt]; lia.
Qed.

Lemma vector_emplace_length {A} (v : list A) (pos : nat) (x : A) :
  pos ≤ length v → length (vector_emplace v pos x) = S (length v).
Proof.
  intros H. unfold vector_emplace.
  rewrite length_app, length_take_le by done. simpl. rewrite length_drop. lia.
Qed.

Lemma vector_emplace_lookup_lt {A} (v : list A) (pos i : nat) (x : A) :
  pos ≤ length v → i < pos → vector_emplace v pos x !! i = v !! i.
Proof.
  intros H Hi. unfold vector_emplace.
  rewrite lookup_app_l by (rewrite length_take_le; lia).
  by apply lookup_take_lt.
Qed.

Lemma vector_emplace_lookup_eq {A} (v : list A) (pos : nat) (x : A) :
  pos ≤ length v → vector_emplace v pos x !! pos = Some x.
Proof.
  intros H. unfold vector_emplace.
  rewrite lookup_app_r by (rewrite length_take_le; lia).
  rewrite length_take_le by done. by rewrite Nat.sub_diag.
Qed.

Lemma vector_emplace_lookup_gt {A} (v : list A) (pos i : nat) (x : A) :
  pos ≤ length v → pos ≤ i → vector_emplace v pos x !! S i = v !! i.
Proof.
  intros H Hi. unfold vector_emplace.
  rewrite lookup_app_r by (rewrite length_take_le; lia).
  rewrite length_take_le by done.
  replace (S i - pos) with (S (i - pos)) by lia. simpl.
  rewrite lookup_drop. f_equal. lia.
Qed.

(** ** Sequence edges: bounds, insertion, removal *)

(** C7.  Indexing a sequence edge at or beyond its size raises the bounds
    error of [std::vector::at]; on an empty sequence [front()] and [back()]
    return the empty [Maybe] (they are total: no exception can leave
    them). *)
Theorem Any_bounds_behaviour (self : Any) (index : nat) :
  (Any_size self ≤ index →
   ∃ msg, Any_at self index = Throw (Exn std_out_of_range msg)) ∧
  (Any_empty self = true →
   Any_front self = Maybe_new ∧ Maybe_empty (Any_front self) = true ∧
   Any_back self = Maybe_new ∧ Maybe_empty (Any_back self) = true).
Proof.
  split.
  - intros Hge. unfold Any_at, vector_at, Any_size in *.
    rewrite (lookup_ge_None_2 _ _ Hge). eauto.
  - unfold Any_empty. rewrite bool_decide_eq_true. intros Hnil.
    unfold Any_front, Any_back. rewrite Hnil. done.
Qed.

Lemma Any_bounds_behaviour_witness :
  (∃ msg, Any_at (mk_Any [mk_Maybe (Some 1%positive)]) 1
          = Throw (Exn std_out_of_range msg)) ∧
  Any_front Any_new = Maybe_new ∧ Any_back Any_new = Maybe_new.
Proof.
  split.
  - apply (proj1 (Any_bounds_behaviour (mk_Any [mk_Maybe (Some 1%positive)]) 1)).
    vm_compute. lia.
  - pose proof (proj2 (Any_bounds_behaviour Any_new 0) eq_refl) as (H1 & _ & H2 & _).
    exact (conj H1 H2).
Defined.

(** C8.  [add] of a non-empty reference: a negative position, or one at or
    beyond the size, appends; a position inside the sequence inserts there,
    the elements before it stay, the elements from it on move up by one. *)
Theorem Any_add_position (self : Any) (v : Maybe) (pos : Z) :
  Maybe_empty v = false →
  signed_size_t_range pos →
  ((pos < 0 ∨ Z.of_nat (Any_size self) ≤ pos)%Z →
   Any_vec (Any_add self v pos) = Any_vec self ++ [v]) ∧
  ((0 ≤ pos < Z.of_nat (Any_size self))%Z →
   Any_size (Any_add self v pos) = S (Any_size self) ∧
   Any_vec (Any_add self v pos) !! Z.to_nat pos = Some v ∧
   (∀ i, i < Z.to_nat pos →
         Any_vec (Any_add self v pos) !! i = Any_vec self !! i) ∧
   (∀ i, Z.to_nat pos ≤ i →
         Any_vec (Any_add self v pos) !! S i = Any_vec self !! i)).
Proof.
  intros Hv Hr. unfold Any_add. rewrite Hv. split.
  - intros Hpos. rewrite (position_test_append _ _ Hr Hpos). simpl.
    by rewrite Maybe_of_ptr_get_ptr.
  - intros Hpos. rewrite (position_test_inside _ _ Hr Hpos). simpl.
    rewrite Maybe_of_ptr_get_ptr. unfold Any_size in *. simpl.
    assert (Z.to_nat pos ≤ length (Any_vec self)) as Hle by lia.
    repeat split.
    + by apply vector_emplace_length.
    + by apply vector_emplace_lookup_eq.
    + intros i Hi. by apply vector_emplace_lookup_lt.
    + intros i Hi. by apply vector_emplace_lookup_gt.
Qed.

Lemma Any_add_position_witness :
  let self := mk_Any [mk_Maybe (Some 1%positive); mk_Maybe (Some 2%positive)] in
  let v := mk_Maybe (Some 3%positive) in
  Any_vec (Any_add self v (-1)) = Any_vec self ++ [v] ∧
  Any_vec (Any_add self v 1) !! Z.to_nat 1 = Some v.
Proof.
  intros self v.
  assert (signed_size_t_range (-1)) as Hr1 by (split; [discriminate | reflexivity]).
  assert (signed_size_t_range 1) as Hr2 by (split; [discriminate | reflexivity]).
  destruct (Any_add_position self v (-1) eq_refl Hr1) as [Happend _].
  destruct (Any_add_position self v 1 eq_refl Hr2) as [_ Hinsert].
  split.
  - apply Happend. left. reflexivity.
  - apply Hinsert. split; [discriminate | reflexivity].
Defined.

Lemma Any_add_keeps_filled (self : Any) (ob : Maybe) (pos : Z) :
  all_filled self → all_filled (Any_add self ob pos).
Proof.
  unfold all_filled, Any_add. intros Hall.
  destruct (Maybe_empty ob) eqn:Hob; [done|].
  rewrite Maybe_of_ptr_get_ptr.
  destruct (_ || _); simpl.
  - apply Forall_app. split; [done|]. by apply Forall_singleton.
  - unfold vector_emplace. apply Forall_app. split.
    + by apply Forall_take.
    + apply Forall_cons. split; [done|]. by apply Forall_drop.
Qed.

Lemma Any_add_all_filled (calls : list (Maybe * Z)) (self : Any) :
  all_filled self → all_filled (Any_add_all self calls).
Proof.
  revert self. induction calls as [|[ob pos] calls IH]; intros self Hall; [done|].
  simpl. apply IH. by apply Any_add_keeps_filled.
Qed.

(** C9.  [add] with an empty reference leaves the sequence as it is, at
    every position; hence a sequence built from the empty one by [add]
    calls holds non-empty references only. *)
Theorem Any_add_empty_noop (self : Any) (ob : Maybe) (pos : Z)
    (calls : list (Maybe * Z)) :
  (Maybe_empty ob = true → Any_add self ob pos = self) ∧
  all_filled (Any_add_all Any_new calls).
Proof.
  split.
  - intros Hob. unfold Any_add. by rewrite Hob.
  - apply Any_add_all_filled. unfold all_filled. simpl. constructor.
Qed.

Lemma Any_add_empty_noop_witness :
  Any_add (mk_Any [mk_Maybe (Some 1%positive)]) Maybe_new 0
  = mk_Any [mk_Maybe (Some 1%positive)].
Proof.
  exact (proj1 (Any_add_empty_noop (mk_Any [mk_Maybe (Some 1%positive)]) Maybe_new 0 [])
               eq_refl).
Defined.

(** C10.  [remove] on an empty sequence changes nothing; on a non-empty one
    a negative position, or one at or beyond the size, removes the last
    element, and a position inside removes the element there: the elements
    before it stay, the elements after it move down by one. *)
Theorem Any_remove_position (self : Any) (pos : Z) :
  (Any_size self = 0 → Any_remove self pos = self) ∧
  (0 < Any_size self → signed_size_t_range pos →
   Any_size (Any_remove self pos) = Any_size self - 1 ∧
   ((pos < 0 ∨ Z.of_nat (Any_size self) ≤ pos)%Z →
    Any_vec (Any_remove self pos) = take (Any_size self - 1) (Any_vec self)) ∧
   ((0 ≤ pos < Z.of_nat (Any_size self))%Z →
    (∀ i, i < Z.to_nat pos →
          Any_vec (Any_remove self pos) !! i = Any_vec self !! i) ∧
    (∀ i, Z.to_nat pos ≤ i →
          Any_vec (Any_remove self pos) !! i = Any_vec self !! S i))).
Proof.
  unfold Any_remove. split.
  - intros Hsz. by rewrite bool_decide_eq_true_2.
  - intros Hsz Hr. rewrite bool_decide_eq_false_2 by lia.
    unfold Any_size, vector_erase in *. split; [|split].
    + simpl. rewrite length_delete; [lia|].
      apply lookup_lt_is_Some. destruct (_ || _) eqn:Htest; [lia|].
      apply orb_false_iff in Htest as [H1%Z.ltb_ge H2%Z.leb_gt].
      rewrite to_size_t_of_nonneg in H2 by done. lia.
    + intros Hpos. rewrite (position_test_append _ _ Hr Hpos). simpl.
      replace (Z.to_nat (Z.of_nat (length (Any_vec self)) - 1))
        with (length (Any_vec self) - 1) by lia.
      rewrite delete_take_drop.
      rewrite (drop_ge (Any_vec self)) by lia. by rewrite app_nil_r.
    + intros Hpos. rewrite (position_test_inside _ _ Hr Hpos). simpl. split.
      * intros i Hi. by apply list_lookup_delete_lt.
      * intros i Hi. by apply list_lookup_delete_ge.
Qed.

Lemma Any_remove_position_witness :
  let self := mk_Any [mk_Maybe (Some 1%positive); mk_Maybe (Some 2%positive)] in
  Any_remove Any_new 0 = Any_new ∧
  Any_vec (Any_remove self (-1)) = take (Any_size self - 1) (Any_vec self).
Proof.
  intros self.
  assert (signed_size_t_range (-1)) as Hr by (split; [discriminate | reflexivity]).
  destruct (Any_remove_position Any_new 0) as [Hempty _].
  destruct (Any_remove_position self (-1)) as [_ Hlast].
  split.
  - apply Hempty. reflexivity.
  - apply Hlast; [apply Nat.lt_0_succ | exact Hr | left; reflexivity].
Defined.

(** ** Edges over an arbitrary node type *)

Section EdgeProperties.
Context {heap link_ref : Type} `{!NodeOps heap link_ref}.

Lemma lock_expired (h : heap) (w : weak_ptr) : expired h w = true → lock h w = None.
Proof. unfold lock. by intros ->. Qed.

(** C2.  An optional link without a target passes the completeness check,
    but it is not written as a map that holds the tag only: with a map
    that does not register the null pointer, as every Phase 1 map is, the
    identifier lookup of [OptLink::serialize] raises [NotWellFormed]. *)
Theorem OptLink_serialize_unset_raises (T : string) (h : heap) (self : OptLink)
    (map : MapWriter) (ids : PointerMap) :
  OptLink_empty h self = true →
  ids !! None = None →
  OptLink_check_complete T h self ids = Ok () ∧
  OptLink_serialize OptLink_serdes_edge_type T h self map ids
  = Throw (Exn NotWellFormed ("Link to node of type " +:+ T +:+ " not found in tree")).
Proof.
  intros Hempty Hnull. split.
  - unfold OptLink_check_complete. by rewrite Hempty.
  - unfold OptLink_serialize, OptLink_get_ptr.
    rewrite (lock_expired _ _ Hempty). unfold PointerMap_get, get_raw, get.
    by rewrite Hnull.
Qed.

End EdgeProperties.

Section EdgeClaims.
Context {heap link_ref : Type} `{!NodeOps heap link_ref}.

(** *** Tag check of the decoders *)

Lemma Maybe_decoder_checks_tag (edge_type T tag : string) (self : Maybe)
    (map : MapReader) (st : heap * IdentifierMap link_ref) :
  MapReader_at map "@T" = Ok (cbor_string tag) → tag ≠ edge_type →
  Maybe_deserialize edge_type T self map st = Throw schema_error.
Proof.
  intros Hat Hne. unfold Maybe_deserialize. rewrite Hat. simpl.
  by rewrite bool_decide_eq_true_2.
Qed.

Lemma Any_decoder_checks_tag (edge_type T tag : string) (self : Any)
    (map : MapReader) (st : heap * IdentifierMap link_ref) :
  MapReader_at map "@T" = Ok (cbor_string tag) → tag ≠ edge_type →
  Any_deserialize edge_type T self map st = Throw schema_error.
Proof.
  intros Hat Hne. unfold Any_deserialize. rewrite Hat. simpl.
  by rewrite bool_decide_eq_true_2.
Qed.

Lemma OptLink_decoder_checks_tag (edge_type T tag : string) (self : OptLink)
    (map : MapReader) (st : heap * IdentifierMap link_ref) :
  MapReader_at map "@T" = Ok (cbor_string tag) → tag ≠ edge_type →
  OptLink_deserialize edge_type T self map st = Throw schema_error.
Proof.
  intros Hat Hne. unfold OptLink_deserialize. rewrite Hat. simpl.
  by rewrite bool_decide_eq_true_2.
Qed.

(** C4.  Every edge decoder compares the encoded ["@T"] tag with the tag
    of its own class first; when they differ it raises the schema error,
    a [RuntimeError] that is not a [NotWellFormed]. *)
Theorem deserialize_tag_mismatch (T tag : string) (map : MapReader)
    (st : heap * IdentifierMap link_ref) :
  MapReader_at map "@T" = Ok (cbor_string tag) →
  (tag ≠ Maybe_serdes_edge_type →
   ∀ self, Maybe_deserialize Maybe_serdes_edge_type T self map st = Throw schema_error) ∧
  (tag ≠ One_serdes_edge_type →
   ∀ self, Maybe_deserialize One_serdes_edge_type T self map st = Throw schema_error) ∧
  (tag ≠ Any_serdes_edge_type →
   ∀ self, Any_deserialize Any_serdes_edge_type T self map st = Throw schema_error) ∧
  (tag ≠ Many_serdes_edge_type →
   ∀ self, Any_deserialize Many_serdes_edge_type T self map st = Throw schema_error) ∧
  (tag ≠ OptLink_serdes_edge_type →
   ∀ self, OptLink_deserialize OptLink_serdes_edge_type T self map st = Throw schema_error) ∧
  (tag ≠ Link_serdes_edge_type →
   ∀ self, OptLink_deserialize Link_serdes_edge_type T self map st = Throw schema_error) ∧
  exn_type schema_error = RuntimeError ∧
  instance_of (exn_type schema_error) NotWellFormed = false.
Proof.
  intros Hat.
  repeat split; intros;
    eauto using Maybe_decoder_checks_tag, Any_decoder_checks_tag,
                OptLink_decoder_checks_tag.
Qed.

(** *** Phase 1 at a single edge *)

Lemma Maybe_find_reachable_registered (T : string) (h : heap) (p : loc)
    (map : PointerMap) :
  is_Some (map !! Some p) →
  ∃ msg, Maybe_find_reachable T h (mk_Maybe (Some p)) map
         = Throw (Exn NotWellFormed msg).
Proof.
  intros [seq Hseq]. unfold Maybe_find_reachable, PointerMap_add, add_raw. simpl.
  unfold get. rewrite Hseq. simpl. eauto.
Qed.

Lemma Maybe_find_reachable_fresh (T : string) (h : heap) (p : loc)
    (map : PointerMap) :
  map !! Some p = None →
  Maybe_find_reachable T h (mk_Maybe (Some p)) map
  = node_find_reachable h p (<[Some p := size map]> map).
Proof.
  intros Hfresh. unfold Maybe_find_reachable, PointerMap_add, add_raw. simpl.
  unfold get. by rewrite Hfresh.
Qed.

(** *** Mandatory edges *)

(** An empty [One] or [Many] edge on its own: the completeness check and
    [check_well_formed] raise, and the message carries the element type. *)
Lemma empty_mandatory_edge_alone (T : string) (h : heap) (map : PointerMap) :
  One_check_complete T h One_new map
  = Throw (Exn NotWellFormed ("'One' edge of type " +:+ T +:+ " is empty")) ∧
  Many_check_complete T h Many_new map
  = Throw (Exn NotWellFormed ("'Many' edge of type " +:+ T +:+ " is empty")) ∧
  check_well_formed (One_Completable T h One_new)
  = Throw (Exn NotWellFormed ("'One' edge of type " +:+ T +:+ " is empty")) ∧
  check_well_formed (Many_Completable T h Many_new)
  = Throw (Exn NotWellFormed ("'Many' edge of type " +:+ T +:+ " is empty")) ∧
  is_well_formed (One_Completable T h One_new) = Ok false ∧
  is_well_formed (Many_Completable T h Many_new) = Ok false.
Proof. repeat split. Qed.

(** *** The stages of deserialisation *)

(** C3.  [deserialize] decodes, then restores the links, then checks
    well-formedness of the decoded tree in the resulting heap; an
    exception of any stage is the outcome of the whole call, and a tree
    is returned only when all three stages succeeded. *)
Theorem deserialize_all_or_nothing (T : string) (h : heap) (reader : cbor) :
  (∀ e, deserialize_decode T h reader = Throw e →
        deserialize T h reader = Throw e) ∧
  (∀ tree h1 ids e,
     deserialize_decode T h reader = Ok (tree, (h1, ids)) →
     restore_links ids h1 = Throw e →
     deserialize T h reader = Throw e) ∧
  (∀ tree h1 ids h2 e,
     deserialize_decode T h reader = Ok (tree, (h1, ids)) →
     restore_links ids h1 = Ok h2 →
     check_well_formed (Maybe_Completable T h2 tree) = Throw e →
     deserialize T h reader = Throw e) ∧
  (∀ tree h2,
     deserialize T h reader = Ok (tree, h2) →
     ∃ h1 ids,
       deserialize_decode T h reader = Ok (tree, (h1, ids)) ∧
       restore_links ids h1 = Ok h2 ∧
       check_well_formed (Maybe_Completable T h2 tree) = Ok ()).
Proof.
  unfold deserialize. repeat split.
  - by intros e ->.
  - intros tree h1 ids e -> Hr. simpl. by rewrite Hr.
  - intros tree h1 ids h2 e -> Hr Hc. simpl. rewrite Hr. simpl. by rewrite Hc.
  - intros tree h2.
    destruct (deserialize_decode T h reader) as [[tree' [h1 ids]]| |]; [|done..].
    simpl. destruct (restore_links ids h1) as [h2'| |] eqn:Hr; [|done..]. simpl.
    destruct (check_well_formed _) as [[]| |] eqn:Hc; [|done..]. simpl.
    intros [= <- <-]. by exists h1, ids.
Qed.

End EdgeClaims.

(** ** Phase 1 over whole trees *)

Lemma numbering_empty : numbering [] ∅.
Proof. repeat split; try done. constructor. Qed.

Lemma numbering_not_elem (order : list loc) (map : PointerMap) (q : loc) :
  numbering order map → map !! Some q = None → q ∉ order.
Proof.
  intros (_ & _ & _ & Hnum) Hfresh [i Hi]%list_elem_of_lookup.
  apply Hnum in Hi. congruence.
Qed.

(** Registering a fresh node gives it the next sequence number. *)
Lemma numbering_snoc (order : list loc) (map : PointerMap) (q : loc) :
  numbering order map → map !! Some q = None →
  numbering (order ++ [q]) (<[Some q := size map]> map).
Proof.
  intros Hnumbering Hfresh.
  pose proof (numbering_not_elem _ _ _ Hnumbering Hfresh) as Hnotin.
  destruct Hnumbering as (Hnodup & Hnull & Hsize & Hnum).
  repeat split.
  - apply NoDup_app. repeat split; [done| |apply NoDup_singleton].
    intros x Hx ->%list_elem_of_singleton. done.
  - by rewrite lookup_insert_ne.
  - rewrite map_size_insert_None by done. rewrite length_app. simpl. lia.
  - destruct (decide (q0 = q)) as [->|Hne].
    + rewrite lookup_insert_eq. intros [= <-]. rewrite Hsize.
      rewrite lookup_app_r by lia. by rewrite Nat.sub_diag.
    + rewrite lookup_insert_ne by congruence. intros Hi%Hnum.
      rewrite lookup_app_l; [done|]. by eapply lookup_lt_Some.
  - intros [[Hlt Hi]|[-> ->]]%lookup_snoc_Some.
    + destruct (decide (q0 = q)) as [->|Hne].
      * exfalso. apply Hnotin. by eapply list_elem_of_lookup_2.
      * rewrite lookup_insert_ne by congruence. by apply Hnum.
    + rewrite lookup_insert_eq. by rewrite Hsize.
Qed.

Section GenericTraversal.
Variable schema : node_schema.
Variable h : object_heap.

Local Abbreviation ops fuel := (generic_node schema fuel).

Lemma extends_preorder_nil : extends_preorder h [] (λ m, Ok m).
Proof.
  intros acc m m' Hnum [= <-]. exists []. split; [constructor|].
  simpl. by rewrite app_nil_r.
Qed.

Lemma extends_preorder_app (ts1 ts2 : list loc)
    (run1 run2 : PointerMap → result PointerMap) :
  extends_preorder h ts1 run1 → extends_preorder h ts2 run2 →
  extends_preorder h (ts1 ++ ts2) (λ m, m1 ← run1 m; run2 m1).
Proof.
  intros H1 H2 acc m m' Hnum Hrun.
  destruct (run1 m) as [m1| |] eqn:Hrun1; simpl in Hrun; [|done..].
  destruct (H1 _ _ _ Hnum Hrun1) as (subs1 & Hsubs1 & Hnum1).
  destruct (H2 _ _ _ Hnum1 Hrun) as (subs2 & Hsubs2 & Hnum2).
  exists (subs1 ++ subs2). split; [by apply Forall2_app|].
  by rewrite concat_app, app_assoc.
Qed.

Lemma Maybe_extends_preorder (fuel : nat) (T : string) (e : Maybe) :
  node_extends_preorder schema h fuel →
  extends_preorder h (option_list (Maybe_val e))
    (@Maybe_find_reachable _ _ (ops fuel) T h e).
Proof.
  intros Hnode acc m m' Hnum. unfold Maybe_find_reachable.
  destruct e as [[q|]]; simpl.
  - unfold PointerMap_add, add_raw, get.
    destruct (m !! Some q) eqn:Hq; [done|]. simpl. intros Hrun.
    destruct (Hnode q (acc ++ [q]) _ _ (numbering_snoc _ _ _ Hnum Hq) Hrun)
      as (subs & Hsubs & Hnum').
    exists [q :: concat subs]. split.
    + constructor; [by constructor | constructor].
    + simpl. rewrite app_nil_r. by rewrite <- app_assoc in Hnum'.
  - by apply extends_preorder_nil.
Qed.

Lemma Any_extends_preorder (fuel : nat) (T : string) (e : Any) :
  node_extends_preorder schema h fuel →
  extends_preorder h (omap Maybe_val (Any_vec e))
    (@Any_find_reachable _ _ (ops fuel) T h e).
Proof.
  intros Hnode. destruct e as [vec]. unfold Any_find_reachable. simpl.
  induction vec as [|x vec IH]; [apply extends_preorder_nil|].
  pose proof (extends_preorder_app _ _ _ _
                (Maybe_extends_preorder fuel T x Hnode) IH) as Happ.
  simpl. destruct x as [[q|]]; exact Happ.
Qed.

Lemma edge_extends_preorder (fuel : nat) (e : edge) :
  node_extends_preorder schema h fuel →
  extends_preorder h (edge_owned e) (@edge_find_reachable (ops fuel) h e).
Proof.
  intros Hnode. destruct e as [T e|T e|T e|T e|T e|T e]; simpl.
  - by apply Maybe_extends_preorder.
  - by apply Maybe_extends_preorder.
  - by apply Any_extends_preorder.
  - by apply Any_extends_preorder.
  - exact extends_preorder_nil.
  - exact extends_preorder_nil.
Qed.

Lemma members_extend_preorder (fuel : nat) (members : list (string * edge)) :
  node_extends_preorder schema h fuel →
  extends_preorder h
    (flat_map (λ member : string * edge, edge_owned member.2) members)
    (for_each (λ member map, @edge_find_reachable (ops fuel) h member.2 map) members).
Proof.
  intros Hnode. induction members as [|member members IH];
    [apply extends_preorder_nil|].
  exact (extends_preorder_app _ _ _ _
           (edge_extends_preorder fuel member.2 Hnode) IH).
Qed.

Lemma node_extends_preorder_all (fuel : nat) : node_extends_preorder schema h fuel.
Proof.
  induction fuel as [|fuel IH]; intros p.
  - intros acc m m' _ Hrun. discriminate Hrun.
  - apply (members_extend_preorder fuel _ IH).
Qed.

(** The sequence numbers of a successful Phase 1 are the positions in the
    depth-first pre-order listing along the owning edges. *)
Lemma find_reachable_preorder (fuel : nat) (T : string) (root : loc)
    (map : PointerMap) :
  @Maybe_find_reachable _ _ (ops fuel) T h (mk_Maybe (Some root)) ∅ = Ok map →
  ∃ order, dfs_preorder h root order ∧ numbering order map.
Proof.
  intros Hrun.
  destruct (Maybe_extends_preorder fuel T (mk_Maybe (Some root))
              (node_extends_preorder_all fuel) [] ∅ map numbering_empty Hrun)
    as (subs & Hsubs & Hnum).
  simpl in Hsubs.
  apply Forall2_cons_inv_l in Hsubs as (order & rest & Horder & Hrest & ->).
  apply Forall2_nil_inv_l in Hrest as ->.
  exists order. split; [done|]. simpl in Hnum. by rewrite app_nil_r in Hnum.
Qed.

End GenericTraversal.

(** ** Phase 1 terminates *)

Section GenericTermination.
Variable schema : node_schema.
Variable h : object_heap.

Local Abbreviation ops fuel := (generic_node schema fuel).

Lemma unvisited_empty : size (unvisited h ∅) = size h.
Proof.
  unfold unvisited. rewrite <- (size_dom (D := gset loc)). f_equal.
  apply set_eq. intros q. rewrite elem_of_filter. split; [by intros [_ ?]|].
  intros Hq. split; [apply lookup_empty | done].
Qed.

Lemma unvisited_insert_subseteq (m : PointerMap) (q : loc) (seq : nat) :
  unvisited h (<[Some q := seq]> m) ⊆ unvisited h m.
Proof.
  unfold unvisited. intros x. rewrite !elem_of_filter.
  intros [Hx ?]. split; [|done].
  apply lookup_insert_None in Hx. tauto.
Qed.

Lemma unvisited_insert_size (m : PointerMap) (q : loc) (seq : nat) :
  is_Some (h !! q) → m !! Some q = None →
  size (unvisited h (<[Some q := seq]> m)) < size (unvisited h m).
Proof.
  intros Hlive Hfresh. apply subset_size. split.
  - apply unvisited_insert_subseteq.
  - intros Hsub. assert (q ∈ unvisited h (<[Some q := seq]> m)) as Hq.
    { apply Hsub. unfold unvisited. apply elem_of_filter.
      split; [done|]. by apply elem_of_dom. }
    unfold unvisited in Hq. apply elem_of_filter in Hq as [Hq _].
    by rewrite lookup_insert_eq in Hq.
Qed.

Lemma settles_nil (fuel : nat) : settles h fuel (λ m, Ok m).
Proof. intros m _. done. Qed.

Lemma settles_bind (fuel : nat) (run1 run2 : PointerMap → result PointerMap) :
  settles h fuel run1 → settles h fuel run2 →
  settles h fuel (λ m, m1 ← run1 m; run2 m1).
Proof.
  intros H1 H2 m Hm. specialize (H1 m Hm).
  destruct (run1 m) as [m1|e|]; simpl; [|done..].
  assert (size (unvisited h m1) < fuel) as Hm1.
  { eapply Nat.le_lt_trans; [by apply subseteq_size|done]. }
  specialize (H2 m1 Hm1). destruct (run2 m1) as [m2|e|]; [|done..].
  by etrans.
Qed.

Lemma Maybe_settles (fuel : nat) (T : string) (e : Maybe) :
  node_settles schema h fuel → settles h fuel (@Maybe_find_reachable _ _ (ops fuel) T h e).
Proof.
  intros Hnode m Hm. unfold Maybe_find_reachable.
  destruct e as [[q|]]; simpl; [|done].
  unfold PointerMap_add, add_raw, get.
  destruct (m !! Some q) eqn:Hq; [done|]. simpl. by apply Hnode.
Qed.

Lemma Any_settles (fuel : nat) (T : string) (e : Any) :
  node_settles schema h fuel → settles h fuel (@Any_find_reachable _ _ (ops fuel) T h e).
Proof.
  intros Hnode. destruct e as [vec]. unfold Any_find_reachable. simpl.
  induction vec as [|x vec IH]; [apply settles_nil|].
  exact (settles_bind _ _ _ (Maybe_settles fuel T x Hnode) IH).
Qed.

Lemma edge_settles (fuel : nat) (e : edge) :
  node_settles schema h fuel → settles h fuel (@edge_find_reachable (ops fuel) h e).
Proof.
  intros Hnode. destruct e as [T e|T e|T e|T e|T e|T e]; simpl.
  - by apply Maybe_settles.
  - by apply Maybe_settles.
  - by apply Any_settles.
  - by apply Any_settles.
  - exact (settles_nil fuel).
  - exact (settles_nil fuel).
Qed.

Lemma members_settle (fuel : nat) (members : list (string * edge)) :
  node_settles schema h fuel →
  settles h fuel
    (for_each (λ member map, @edge_find_reachable (ops fuel) h member.2 map) members).
Proof.
  intros Hnode. induction members as [|member members IH]; [apply settles_nil|].
  exact (settles_bind _ _ _ (edge_settles fuel member.2 Hnode) IH).
Qed.

Lemma node_settles_all (fuel : nat) : node_settles schema h fuel.
Proof.
  induction fuel as [|fuel IH]; intros q m Hq Hm; [lia|].
  change (@node_find_reachable _ _ (ops (S fuel)) h q (<[Some q := size m]> m))
    with (for_each (λ member map, @edge_find_reachable (ops fuel) h member.2 map)
            (Node_fields (h !!! q)) (<[Some q := size m]> m)).
  destruct (h !! q) as [n|] eqn:Hlive.
  - pose proof (unvisited_insert_size m q (size m) (mk_is_Some _ _ Hlive) Hq) as Hlt.
    pose proof (members_settle fuel (Node_fields (h !!! q)) IH
                  (<[Some q := size m]> m) ltac:(lia)) as Hrun.
    destruct (for_each _ _ _) as [m'|e|]; [|done..].
    etrans; [exact Hrun|]. apply unvisited_insert_subseteq.
  - rewrite lookup_total_alt, Hlive. simpl. apply unvisited_insert_subseteq.
Qed.

(** With more fuel than there are live objects, Phase 1 from a root
    returns a map or raises [NotWellFormed]. *)
Lemma find_reachable_settles (fuel : nat) (T : string) (root : Maybe) :
  size h < fuel →
  (∃ map, @Maybe_find_reachable _ _ (ops fuel) T h root ∅ = Ok map) ∨
  (∃ msg, @Maybe_find_reachable _ _ (ops fuel) T h root ∅
          = Throw (Exn NotWellFormed msg)).
Proof.
  intros Hfuel.
  pose proof (Maybe_settles fuel T root (node_settles_all fuel) ∅) as Hrun.
  rewrite unvisited_empty in Hrun. specialize (Hrun Hfuel).
  destruct (Maybe_find_reachable _ _ _ _) as [m|[c msg]|]; [eauto| |done].
  simpl in Hrun. subst c. eauto.
Qed.

End GenericTermination.

(** ** Phase 2 finds every mandatory edge that was left empty *)

Section GenericCompleteness.
Variable schema : node_schema.
Variable h : object_heap.

Local Abbreviation ops fuel := (generic_node schema fuel).

Lemma verdict_bind {A B : Type} (r : result A) (k : A → result B) (P Q : Prop) :
  verdict r P → (∀ a, P → verdict (k a) Q) → verdict (r ≫= k) Q.
Proof. destruct r as [a|e|]; simpl; auto. Qed.

Lemma verdict_mono {A : Type} (r : result A) (P Q : Prop) :
  (P → Q) → verdict r P → verdict r Q.
Proof. destruct r; simpl; auto. Qed.

Lemma PointerMap_get_verdict (T : string) (ptr : shared_ptr) (map : PointerMap) :
  verdict (PointerMap_get T ptr map) True.
Proof. unfold PointerMap_get, get_raw. by destruct (map !! get ptr). Qed.

Lemma Maybe_verified (fuel : nat) (T : string) (e : Maybe) (m m' mc : PointerMap) :
  node_verified schema h fuel →
  @Maybe_find_reachable _ _ (ops fuel) T h e m = Ok m' →
  verdict (@Maybe_check_complete _ _ (ops fuel) T h e mc)
          (∀ q, q ∈ option_list (Maybe_val e) → subtree_complete h q).
Proof.
  intros Hnode. unfold Maybe_find_reachable, Maybe_check_complete.
  destruct e as [[p|]]; simpl.
  - unfold PointerMap_add, add_raw, get.
    destruct (m !! Some p); [done|]. simpl. intros Hrun.
    eapply verdict_mono; [|by eapply Hnode].
    intros Hp q ->%list_elem_of_singleton. done.
  - intros _ q Hq. by apply elem_of_nil in Hq.
Qed.

Lemma One_verified (fuel : nat) (T : string) (e : One) (m m' mc : PointerMap) :
  node_verified schema h fuel →
  @Maybe_find_reachable _ _ (ops fuel) T h e m = Ok m' →
  verdict (@One_check_complete _ _ (ops fuel) T h e mc)
          (Maybe_val e ≠ None ∧ ∀ q, q ∈ option_list (Maybe_val e) → subtree_complete h q).
Proof.
  intros Hnode Hrun.
  pose proof (Maybe_verified fuel T e m m' mc Hnode Hrun) as Hv.
  unfold One_check_complete, Maybe_check_complete in *.
  destruct e as [[p|]]; simpl in *; [|done].
  eapply verdict_mono; [|exact Hv]. done.
Qed.

Lemma vector_verified (fuel : nat) (T : string) (vec : list One)
    (m m' mc : PointerMap) :
  node_verified schema h fuel →
  for_each (λ sptr map, @Maybe_find_reachable _ _ (ops fuel) T h sptr map) vec m = Ok m' →
  verdict (for_each (λ sptr _, @One_check_complete _ _ (ops fuel) T h sptr mc) vec ())
          ((Maybe_new ∉ vec) ∧ ∀ q, q ∈ omap Maybe_val vec → subtree_complete h q).
Proof.
  intros Hnode. revert m. induction vec as [|x vec IH]; intros m; simpl.
  - intros _. split; [apply not_elem_of_nil|]. intros q Hq. by apply elem_of_nil in Hq.
  - destruct (Maybe_find_reachable T h x m) as [m1| |] eqn:Hx; simpl; [|done..].
    intros Hrest.
    eapply verdict_bind; [by eapply (One_verified fuel T x m m1 mc)|].
    intros [] [Hfilled Hsub].
    eapply verdict_mono; [|by eapply IH].
    intros [Hvec Hsubs]. split.
    + intros [<-|Hin]%elem_of_cons; [by apply Hfilled|by apply Hvec].
    + destruct x as [[p|]]; simpl in *; [|done].
      intros q [->|Hq]%elem_of_cons; [apply Hsub; by left|by apply Hsubs].
Qed.

Lemma edge_verified (fuel : nat) (e : edge) (m m' mc : PointerMap) :
  node_verified schema h fuel →
  @edge_find_reachable (ops fuel) h e m = Ok m' →
  verdict (@edge_check_complete (ops fuel) h e mc)
          (¬ edge_lacks e ∧ ∀ q, q ∈ edge_owned e → subtree_complete h q).
Proof.
  intros Hnode. destruct e as [T e|T e|T e|T e|T e|T e]; simpl.
  - intros Hrun. eapply verdict_mono; [|by eapply Maybe_verified]. tauto.
  - intros Hrun. eapply verdict_mono; [|by eapply One_verified]. tauto.
  - destruct e as [vec]. unfold Any_find_reachable, Any_check_complete. simpl.
    intros Hrun. eapply verdict_mono; [|by eapply vector_verified]. tauto.
  - destruct e as [vec]. unfold Any_find_reachable, Many_check_complete,
      Any_check_complete, Any_empty. simpl.
    intros Hrun. case_bool_decide as Hnil; [done|].
    eapply verdict_mono; [|by eapply vector_verified]. tauto.
  - intros _. unfold OptLink_check_complete.
    destruct (negb _); simpl.
    + eapply verdict_bind; [apply PointerMap_get_verdict|].
      intros _ _. simpl. split; [tauto|]. intros q Hq. by apply elem_of_nil in Hq.
    + split; [tauto|]. intros q Hq. by apply elem_of_nil in Hq.
  - intros _. unfold Link_check_complete.
    destruct (OptLink_empty _ _); simpl; [done|].
    eapply verdict_bind; [apply PointerMap_get_verdict|].
    intros _ _. simpl. split; [tauto|]. intros q Hq. by apply elem_of_nil in Hq.
Qed.

Lemma members_verified (fuel : nat) (members : list (string * edge))
    (m m' mc : PointerMap) :
  node_verified schema h fuel →
  for_each (λ member map, @edge_find_reachable (ops fuel) h member.2 map) members m
  = Ok m' →
  verdict (for_each (λ member _, @edge_check_complete (ops fuel) h member.2 mc)
             members ())
          ((∀ member, member ∈ members → ¬ edge_lacks member.2) ∧
           ∀ q, q ∈ flat_map (λ member : string * edge, edge_owned member.2) members →
                subtree_complete h q).
Proof.
  intros Hnode. revert m. induction members as [|member members IH]; intros m; simpl.
  - intros _. split; intros x Hx; by apply elem_of_nil in Hx.
  - destruct (edge_find_reachable h member.2 m) as [m1| |] eqn:Hx; simpl; [|done..].
    intros Hrest.
    eapply verdict_bind; [by eapply (edge_verified fuel member.2 m m1 mc)|].
    intros [] [Hfilled Hsub].
    eapply verdict_mono; [|by eapply IH].
    intros [Hmembers Hsubs]. split.
    + intros x [->|Hin]%elem_of_cons; [done|by apply Hmembers].
    + intros q [Hq|Hq]%elem_of_app; [by apply Hsub|by apply Hsubs].
Qed.

Lemma node_verified_all (fuel : nat) : node_verified schema h fuel.
Proof.
  induction fuel as [|fuel IH]; intros p m m' mc Hrun; [discriminate Hrun|].
  eapply verdict_mono; [|exact (members_verified fuel _ m m' mc IH Hrun)].
  intros [Hmembers Hsubs] q Hpath.
  apply rtc_inv in Hpath as [<-|(r & Hown & Hrest)]; [exact Hmembers|].
  by apply (Hsubs r).
Qed.

(** A tree with a mandatory edge left empty somewhere below the root is
    rejected by [check_well_formed], given more fuel than there are live
    objects. *)
Lemma check_well_formed_rejects_incomplete (fuel : nat) (T : string)
    (root q : loc) (member : string * edge) :
  size h < fuel →
  rtc (owns h) root q →
  member ∈ Node_fields (h !!! q) → edge_lacks member.2 →
  ∃ msg, check_well_formed (@Maybe_Completable _ _ (ops fuel) T h (mk_Maybe (Some root)))
         = Throw (Exn NotWellFormed msg).
Proof.
  intros Hfuel Hpath Hmember Hlacks. unfold check_well_formed. simpl.
  destruct (find_reachable_settles schema h fuel T (mk_Maybe (Some root)) Hfuel)
    as [[map Hrun]|[msg Hrun]]; rewrite Hrun; simpl; [|eauto].
  assert (verdict (@node_check_complete _ _ (ops fuel) h root map)
                  (subtree_complete h root)) as Hv.
  { unfold Maybe_find_reachable, PointerMap_add, add_raw, get in Hrun.
    simpl in Hrun. destruct (∅ !! Some root); [done|]. simpl in Hrun.
    by eapply node_verified_all. }
  unfold Maybe_check_complete. simpl.
  destruct (node_check_complete h root map) as [[]|[c msg]|]; simpl in Hv.
  - exfalso. by apply (Hv q Hpath member).
  - subst c. eauto.
  - done.
Qed.

End GenericCompleteness.

(** ** The encoder rejects every link without a target *)

Section GenericEncoding.
Variable schema : node_schema.
Variable h : object_heap.

Local Abbreviation ops fuel := (generic_node schema fuel).

Lemma generic_alive (fuel : nat) (p : loc) :
  @alive _ _ (ops fuel) h p = bool_decide (is_Some (h !! p)).
Proof. by destruct fuel. Qed.

Lemma link_unset_empty (fuel : nat) (l : OptLink) :
  link_unset h l ↔ @OptLink_empty _ _ (ops fuel) h l = true.
Proof.
  unfold link_unset, OptLink_empty, expired. destruct (OptLink_val l) as [p|]; [|done].
  rewrite generic_alive, negb_true_iff, bool_decide_eq_false.
  rewrite <- eq_None_not_Some. done.
Qed.

Lemma OptLink_serialize_verdict (fuel : nat) (edge_type T : string) (l : OptLink)
    (w : MapWriter) (ids : PointerMap) :
  ids !! None = None →
  verdict (@OptLink_serialize _ _ (ops fuel) edge_type T h l w ids) (¬ link_unset h l).
Proof.
  intros Hnull. unfold OptLink_serialize, OptLink_get_ptr.
  destruct (@OptLink_empty _ _ (ops fuel) h l) eqn:Hempty.
  - unfold OptLink_empty in Hempty. rewrite (lock_expired _ _ Hempty).
    unfold PointerMap_get, get_raw, get. by rewrite Hnull.
  - eapply verdict_bind; [apply PointerMap_get_verdict|].
    intros seq _. simpl. rewrite (link_unset_empty fuel). by rewrite Hempty.
Qed.

Lemma Maybe_encoded (fuel : nat) (edge_type T : string) (e : Maybe)
    (m m' : PointerMap) (w : MapWriter) (ids : PointerMap) :
  node_encoded schema h fuel → ids !! None = None →
  @Maybe_find_reachable _ _ (ops fuel) T h e m = Ok m' →
  verdict (@Maybe_serialize _ _ (ops fuel) edge_type T h e w ids)
          (∀ q, q ∈ option_list (Maybe_val e) → subtree_linked h q).
Proof.
  intros Hnode Hnull. unfold Maybe_find_reachable, Maybe_serialize.
  destruct e as [[p|]]; simpl.
  - unfold PointerMap_add, add_raw. unfold get at 1.
    destruct (m !! Some p); [done|]. simpl. intros Hrun.
    eapply verdict_bind; [apply PointerMap_get_verdict|].
    intros seq _. eapply verdict_mono; [|by eapply Hnode].
    intros Hp q ->%list_elem_of_singleton. done.
  - intros _ q Hq. by apply elem_of_nil in Hq.
Qed.

Lemma vector_encoded (fuel : nat) (T : string) (vec : list One)
    (m m' : PointerMap) (ar : list cbor) (ids : PointerMap) :
  node_encoded schema h fuel → ids !! None = None →
  for_each (λ sptr map, @Maybe_find_reachable _ _ (ops fuel) T h sptr map) vec m = Ok m' →
  verdict (for_each
             (λ sptr ar,
                submap ← @Maybe_serialize _ _ (ops fuel) One_serdes_edge_type T h sptr [] ids;
                Ok (ar ++ [cbor_map submap]))
             vec ar)
          (∀ q, q ∈ omap Maybe_val vec → subtree_linked h q).
Proof.
  intros Hnode Hnull. revert m ar. induction vec as [|x vec IH]; intros m ar; simpl.
  - intros _ q Hq. by apply elem_of_nil in Hq.
  - destruct (Maybe_find_reachable T h x m) as [m1| |] eqn:Hx; simpl; [|done..].
    intros Hrest.
    eapply verdict_bind.
    { eapply verdict_bind; [by eapply (Maybe_encoded fuel _ T x m m1)|].
      intros submap Hsub. exact Hsub. }
    intros ar' Hsub. eapply verdict_mono; [|by eapply IH].
    intros Hsubs. destruct x as [[p|]]; simpl in *; [|done].
    intros q [->|Hq]%elem_of_cons; [apply Hsub; by left|by apply Hsubs].
Qed.

Lemma edge_encoded (fuel : nat) (e : edge) (m m' : PointerMap) (w : MapWriter)
    (ids : PointerMap) :
  node_encoded schema h fuel → ids !! None = None →
  @edge_find_reachable (ops fuel) h e m = Ok m' →
  verdict (@edge_serialize (ops fuel) h e w ids)
          (¬ edge_unlinked h e ∧ ∀ q, q ∈ edge_owned e → subtree_linked h q).
Proof.
  intros Hnode Hnull. destruct e as [T e|T e|T e|T e|T e|T e]; simpl.
  - intros Hrun. eapply verdict_mono; [|by eapply Maybe_encoded]. tauto.
  - intros Hrun. eapply verdict_mono; [|by eapply Maybe_encoded]. tauto.
  - destruct e as [vec]. unfold Any_find_reachable, Any_serialize. simpl.
    intros Hrun. eapply verdict_bind; [by eapply vector_encoded|].
    intros ar Hsubs. simpl. tauto.
  - destruct e as [vec]. unfold Any_find_reachable, Any_serialize. simpl.
    intros Hrun. eapply verdict_bind; [by eapply vector_encoded|].
    intros ar Hsubs. simpl. tauto.
  - intros _. eapply verdict_mono; [|by apply OptLink_serialize_verdict].
    intros Hset. split; [done|]. intros q Hq. by apply elem_of_nil in Hq.
  - intros _. eapply verdict_mono; [|by apply OptLink_serialize_verdict].
    intros Hset. split; [done|]. intros q Hq. by apply elem_of_nil in Hq.
Qed.

Lemma members_encoded (fuel : nat) (members : list (string * edge))
    (m m' : PointerMap) (w : MapWriter) (ids : PointerMap) :
  node_encoded schema h fuel → ids !! None = None →
  for_each (λ member map, @edge_find_reachable (ops fuel) h member.2 map) members m
  = Ok m' →
  verdict (for_each
             (λ member map,
                submap ← @edge_serialize (ops fuel) h member.2 [] ids;
                Ok (map ++ [(member.1, cbor_map submap)]))
             members w)
          ((∀ member, member ∈ members → ¬ edge_unlinked h member.2) ∧
           ∀ q, q ∈ flat_map (λ member : string * edge, edge_owned member.2) members →
                subtree_linked h q).
Proof.
  intros Hnode Hnull. revert m w.
  induction members as [|member members IH]; intros m w; simpl.
  - intros _. split; intros x Hx; by apply elem_of_nil in Hx.
  - destruct (edge_find_reachable h member.2 m) as [m1| |] eqn:Hx; simpl; [|done..].
    intros Hrest.
    eapply verdict_bind.
    { eapply verdict_bind; [by eapply (edge_encoded fuel member.2 m m1)|].
      intros submap Hmember. exact Hmember. }
    intros w' [Hlinked Hsub]. eapply verdict_mono; [|by eapply IH].
    intros [Hmembers Hsubs]. split.
    + intros x [->|Hin]%elem_of_cons; [done|by apply Hmembers].
    + intros q [Hq|Hq]%elem_of_app; [by apply Hsub|by apply Hsubs].
Qed.

Lemma node_encoded_all (fuel : nat) : node_encoded schema h fuel.
Proof.
  induction fuel as [|fuel IH]; intros p m m' w ids Hnull Hrun; [discriminate Hrun|].
  eapply verdict_mono; [|exact (members_encoded fuel _ m m' _ ids IH Hnull Hrun)].
  intros [Hmembers Hsubs] q Hpath.
  apply rtc_inv in Hpath as [<-|(r & Hown & Hrest)]; [exact Hmembers|].
  by apply (Hsubs r).
Qed.

(** C1.  No round trip for every well-formed tree: a tree that has a link
    without a target somewhere below its root is never written.  With more
    fuel than there are live objects [serialize] raises [NotWellFormed] on
    it, and it does so also when the link is an optional one, which
    [check_well_formed] accepts: there is no document to read back. *)
Theorem serialize_rejects_unset_link (fuel : nat) (T : string)
    (root q : loc) (member : string * edge) :
  size h < fuel →
  rtc (owns h) root q →
  member ∈ Node_fields (h !!! q) → edge_unlinked h member.2 →
  ∃ msg, @serialize _ _ (ops fuel) T h (mk_Maybe (Some root))
         = Throw (Exn NotWellFormed msg).
Proof.
  intros Hfuel Hpath Hmember Hunlinked. unfold serialize.
  destruct (find_reachable_settles schema h fuel T (mk_Maybe (Some root)) Hfuel)
    as [[ids Hrun]|[msg Hrun]]; rewrite Hrun; simpl; [|eauto].
  destruct (find_reachable_preorder schema h fuel T root ids Hrun)
    as (order & _ & _ & Hnull & _).
  assert (∃ m1, @node_find_reachable _ _ (ops fuel) h root m1 = Ok ids) as [m1 Hnode].
  { unfold Maybe_find_reachable, PointerMap_add, add_raw, get in Hrun.
    simpl in Hrun. destruct (_ !! Some root); [done|]. simpl in Hrun. eauto. }
  pose proof (node_verified_all schema h fuel root m1 ids ids Hnode) as Hcheck.
  unfold Maybe_check_complete. simpl.
  destruct (node_check_complete h root ids) as [[]|[c msg]|]; simpl in Hcheck;
    [|subst c; simpl; eauto|done].
  simpl.
  pose proof (Maybe_encoded fuel Maybe_serdes_edge_type T (mk_Maybe (Some root))
                ∅ ids [] ids (node_encoded_all fuel) Hnull Hrun) as Hwrite.
  destruct (Maybe_serialize _ _ _ _ _ _) as [w|[c msg]|]; simpl in Hwrite.
  - exfalso. apply (Hwrite root (list_elem_of_here _ _) q Hpath member); done.
  - subst c. simpl. eauto.
  - done.
Qed.

End GenericEncoding.


(** ** Phase 1 and the mandatory edges: the claims *)

(** C5.  Phase 1.  At a single edge, for every node type: a link edge
    returns the map as it is and calls nothing; an empty owning edge does
    the same; an owning edge whose node is already registered raises
    [NotWellFormed] without entering the node; otherwise the node gets the
    number of nodes registered so far and only then its own edges are
    traversed; a sequence edge handles its elements from first to last.
    Over whole trees: with more fuel than there are live objects the
    traversal from a root either raises [NotWellFormed] or returns a map,
    and the sequence numbers of a returned map are the positions in the
    depth-first pre-order listing along the owning edges. *)
Theorem find_reachable_phase1 :
  (∀ (heap link_ref : Type) (ops : NodeOps heap link_ref)
     (T : string) (h : heap) (map : PointerMap),
     (∀ link : OptLink, OptLink_find_reachable T h link map = Ok map) ∧
     Maybe_find_reachable T h Maybe_new map = Ok map ∧
     (∀ p, is_Some (map !! Some p) →
           ∃ msg, Maybe_find_reachable T h (mk_Maybe (Some p)) map
                  = Throw (Exn NotWellFormed msg)) ∧
     (∀ p, map !! Some p = None →
           Maybe_find_reachable T h (mk_Maybe (Some p)) map
           = node_find_reachable h p (<[Some p := size map]> map)) ∧
     (∀ x xs,
        Any_find_reachable T h (mk_Any (x :: xs)) map
        = map' ← Maybe_find_reachable T h x map;
          Any_find_reachable T h (mk_Any xs) map')) ∧
  (∀ (schema : node_schema) (fuel : nat) (T : string) (h : object_heap)
     (root : loc),
     (∀ map,
        @Maybe_find_reachable _ _ (generic_node schema fuel) T h (mk_Maybe (Some root)) ∅
        = Ok map →
        ∃ order, dfs_preorder h root order ∧ numbering order map) ∧
     (size h < fuel →
      (∃ map,
         @Maybe_find_reachable _ _ (generic_node schema fuel) T h (mk_Maybe (Some root)) ∅
         = Ok map) ∨
      (∃ msg,
         @Maybe_find_reachable _ _ (generic_node schema fuel) T h (mk_Maybe (Some root)) ∅
         = Throw (Exn NotWellFormed msg)))).
Proof.
  split.
  - intros heap link_ref ops T h map. split; [|split; [|split; [|split]]].
    + done.
    + done.
    + intros p. apply Maybe_find_reachable_registered.
    + intros p. apply Maybe_find_reachable_fresh.
    + done.
  - intros schema fuel T h root. split.
    + intros map. apply find_reachable_preorder.
    + apply find_reachable_settles.
Qed.

Lemma find_reachable_phase1_witness :
  let ops := generic_node example_schema 4 in
  (∃ msg, @Maybe_find_reachable _ _ ops "Root" scenario_heap example_root
            (<[Some loc_R := 0]> ∅)
          = Throw (Exn NotWellFormed msg)) ∧
  @Maybe_find_reachable _ _ ops "Root" scenario_heap example_root ∅
  = @node_find_reachable _ _ ops scenario_heap loc_R (<[Some loc_R := size (∅ : PointerMap)]> ∅) ∧
  (∃ map order,
     @Maybe_find_reachable _ _ ops "Root" scenario_heap example_root ∅ = Ok map ∧
     dfs_preorder scenario_heap loc_R order ∧ numbering order map).
Proof.
  intros ops.
  destruct find_reachable_phase1 as [Hedge Htree].
  destruct (Hedge _ _ ops "Root" scenario_heap (<[Some loc_R := 0]> ∅))
    as (_ & _ & Hdup & _).
  destruct (Hedge _ _ ops "Root" scenario_heap ∅) as (_ & _ & _ & Hfresh & _).
  destruct (Htree example_schema 4 "Root" scenario_heap loc_R) as [Horder Hsettles].
  split; [|split].
  - apply Hdup. exists 0. reflexivity.
  - apply Hfresh. reflexivity.
  - destruct Hsettles as [[map Hrun]|[msg Hrun]].
    + vm_compute. lia.
    + destruct (Horder map Hrun) as (order & Hpre & Hnum).
      by exists map, order.
    + vm_compute in Hrun. discriminate Hrun.
Defined.

(** The scenario of the specification: the root gets 0, [A] gets 1, [B]
    gets 2. *)
Example scenario_sequence_numbers :
  ∃ map,
    @Maybe_find_reachable _ _ (generic_node example_schema 2) "Root"
      scenario_heap example_root ∅ = Ok map ∧
    map !! Some loc_R = Some 0 ∧ map !! Some loc_A = Some 1 ∧
    map !! Some loc_B = Some 2 ∧ size map = 3.
Proof.
  destruct (@Maybe_find_reachable _ _ (generic_node example_schema 2) "Root"
              scenario_heap example_root ∅) as [map| |] eqn:Hrun;
    [|vm_compute in Hrun; discriminate Hrun..].
  exists map. split; [done|].
  vm_compute in Hrun. injection Hrun as <-. vm_compute. done.
Qed.

(** C6.  The completeness check of an empty [One] or [Many] edge, and with
    it [check_well_formed], raises [NotWellFormed] with a message that
    carries the name of the element type [T]; a tree that has such an edge
    anywhere below its root is rejected by [check_well_formed]; the
    constructors and the mutators that leave such an edge empty are total:
    they return the empty edge and have no failing outcome. *)
Theorem mandatory_edge_empty :
  (∀ (heap link_ref : Type) (ops : NodeOps heap link_ref)
     (T : string) (h : heap) (map : PointerMap),
     One_check_complete T h One_new map
     = Throw (Exn NotWellFormed ("'One' edge of type " +:+ T +:+ " is empty")) ∧
     Many_check_complete T h Many_new map
     = Throw (Exn NotWellFormed ("'Many' edge of type " +:+ T +:+ " is empty")) ∧
     check_well_formed (One_Completable T h One_new)
     = Throw (Exn NotWellFormed ("'One' edge of type " +:+ T +:+ " is empty")) ∧
     check_well_formed (Many_Completable T h Many_new)
     = Throw (Exn NotWellFormed ("'Many' edge of type " +:+ T +:+ " is empty")) ∧
     is_well_formed (One_Completable T h One_new) = Ok false ∧
     is_well_formed (Many_Completable T h Many_new) = Ok false) ∧
  (∀ (schema : node_schema) (fuel : nat) (T : string) (h : object_heap)
     (root q : loc) (member : string * edge),
     size h < fuel →
     rtc (owns h) root q →
     member ∈ Node_fields (h !!! q) → edge_lacks member.2 →
     ∃ msg,
       check_well_formed
         (@Maybe_Completable _ _ (generic_node schema fuel) T h (mk_Maybe (Some root)))
       = Throw (Exn NotWellFormed msg)) ∧
  ((∀ self : One, Maybe_reset self = One_new) ∧
   (∀ self : One, Maybe_set self None = One_new) ∧
   (∀ self : Many, Any_reset self = Many_new) ∧
   (∀ x : One, Any_remove (mk_Any [x]) (-1) = Many_new) ∧
   Maybe_empty One_new = true ∧ Any_empty Many_new = true).
Proof.
  split; [|split].
  - intros heap link_ref ops T h map. apply empty_mandatory_edge_alone.
  - intros schema fuel T h root q member.
    apply check_well_formed_rejects_incomplete.
  - repeat split.
Qed.

Lemma mandatory_edge_empty_witness :
  ∃ msg,
    check_well_formed
      (@Maybe_Completable _ _ (generic_node example_schema 3) "Root"
         incomplete_heap example_root)
    = Throw (Exn NotWellFormed msg).
Proof.
  destruct mandatory_edge_empty as (_ & Htree & _).
  apply (Htree example_schema 3 "Root" incomplete_heap loc_R loc_A
               ("content", One_edge "Leaf" One_new)).
  - vm_compute. lia.
  - eapply rtc_l; [|apply rtc_refl]. vm_compute. apply list_elem_of_here.
  - vm_compute. apply list_elem_of_here.
  - reflexivity.
Defined.

(** The incomplete tree is rejected with the message of its empty edge. *)
Example incomplete_tree_message :
  check_well_formed
    (@Maybe_Completable _ _ (generic_node example_schema 3) "Root"
       incomplete_heap example_root)
  = Throw (Exn NotWellFormed "'One' edge of type Leaf is empty").
Proof. vm_compute. reflexivity. Qed.


(** ** The entry points on the small tree *)

Lemma deserialize_tag_mismatch_witness :
  let ops := generic_node example_schema 0 in
  @Maybe_deserialize _ _ ops Maybe_serdes_edge_type "Root" Maybe_new
    [("@T", cbor_string "1"); ("@t", cbor_null)] (∅, IdentifierMap_new)
  = Throw schema_error ∧
  OptLink_deserialize OptLink_serdes_edge_type "Root" OptLink_new
    [("@T", cbor_string "1"); ("@t", cbor_null)]
    ((∅, IdentifierMap_new) : object_heap * IdentifierMap member_ref)
  = Throw schema_error.
Proof.
  intros ops.
  destruct (@deserialize_tag_mismatch _ _ ops "Root" "1"
              [("@T", cbor_string "1"); ("@t", cbor_null)] (∅, IdentifierMap_new)
              eq_refl)
    as (HMaybe & _ & _ & _ & HOptLink & _).
  split.
  - apply HMaybe. discriminate.
  - apply HOptLink. discriminate.
Defined.

Lemma deserialize_all_or_nothing_witness :
  let ops := generic_node example_schema 3 in
  @deserialize _ _ ops "Root" ∅ wrong_tag_document = Throw schema_error ∧
  @deserialize _ _ ops "Root" ∅ unknown_link_document
  = Throw (Exn NotWellFormed "link to unknown node identifier") ∧
  @deserialize _ _ ops "Root" ∅ empty_items_document
  = Throw (Exn NotWellFormed "'Many' edge of type Item is empty") ∧
  ∃ tree h1 ids h2,
    @deserialize_decode _ _ ops "Root" ∅ scenario_document = Ok (tree, (h1, ids)) ∧
    @restore_links _ _ ops ids h1 = Ok h2 ∧
    check_well_formed (@Maybe_Completable _ _ ops "Root" h2 tree) = Ok ().
Proof.
  intros ops.
  destruct (@deserialize_all_or_nothing _ _ ops "Root" ∅ wrong_tag_document)
    as (Hdecode & _).
  destruct (@deserialize_all_or_nothing _ _ ops "Root" ∅ unknown_link_document)
    as (_ & Hrestore & _).
  destruct (@deserialize_all_or_nothing _ _ ops "Root" ∅ empty_items_document)
    as (_ & _ & Hcheck & _).
  destruct (@deserialize_all_or_nothing _ _ ops "Root" ∅ scenario_document)
    as (_ & _ & _ & Hok).
  split; [|split; [|split]].
  - apply Hdecode. vm_compute. reflexivity.
  - destruct (@deserialize_decode _ _ ops "Root" ∅ unknown_link_document)
      as [[tree [h1 ids]]| |] eqn:Hd; [|vm_compute in Hd; discriminate Hd..].
    apply (Hrestore tree h1 ids _ eq_refl).
    vm_compute in Hd. injection Hd as <- <- <-. vm_compute. reflexivity.
  - destruct (@deserialize_decode _ _ ops "Root" ∅ empty_items_document)
      as [[tree [h1 ids]]| |] eqn:Hd; [|vm_compute in Hd; discriminate Hd..].
    apply (Hcheck tree h1 ids h1 _ eq_refl).
    + vm_compute in Hd. injection Hd as <- <- <-. vm_compute. reflexivity.
    + vm_compute in Hd. injection Hd as <- <- <-. vm_compute. reflexivity.
  - destruct (@deserialize _ _ ops "Root" ∅ scenario_document)
      as [[tree h2]| |] eqn:Hrun; [|vm_compute in Hrun; discriminate Hrun..].
    destruct (Hok tree h2 eq_refl) as (h1 & ids & H1 & H2 & H3).
    by exists tree, h1, ids, h2.
Defined.

(** The scenario of the specification, both ways: the tree is written as
    [scenario_document], and the document is read back into three fresh
    nodes with the link of the first item resolved to the new root. *)
Example scenario_serialize (k : nat) :
  @serialize _ _ (generic_node example_schema (2 + k)) "Root" scenario_heap example_root
  = Ok scenario_document.
Proof. destruct k; vm_compute; reflexivity. Qed.

Example scenario_deserialize :
  ∃ (root a b : loc) (h : object_heap),
    @deserialize _ _ (generic_node example_schema 3) "Root" ∅ scenario_document
    = Ok (mk_Maybe (Some root), h) ∧
    h !! root = Some (Root_node [mk_Maybe (Some a); mk_Maybe (Some b)]) ∧
    h !! a = Some (Item_node (Some root)) ∧
    h !! b = Some Leaf_node.
Proof.
  destruct (@deserialize _ _ (generic_node example_schema 3) "Root" ∅ scenario_document)
    as [[tree h]| |] eqn:Hrun; [|vm_compute in Hrun; discriminate Hrun..].
  vm_compute in Hrun. injection Hrun as <- <-.
  exists 3%positive, 1%positive, 2%positive. eexists. split; [reflexivity|].
  vm_compute. done.
Qed.

(** ** An optional link that is not set *)

(** The Phase 1 map of the tree of [unset_link_heap]. *)
Example unset_link_sequence_numbers (k : nat) :
  @Maybe_find_reachable _ _ (generic_node example_schema (2 + k)) "Root"
    unset_link_heap example_root ∅
  = Ok unset_link_ids.
Proof. destruct k; vm_compute; reflexivity. Qed.

Lemma OptLink_serialize_unset_raises_witness :
  let ops := generic_node example_schema 2 in
  @OptLink_check_complete _ _ ops "Root" unset_link_heap OptLink_new unset_link_ids
  = Ok () ∧
  @OptLink_serialize _ _ ops OptLink_serdes_edge_type "Root" unset_link_heap
    OptLink_new [] unset_link_ids
  = Throw (Exn NotWellFormed ("Link to node of type " +:+ "Root" +:+ " not found in tree")).
Proof.
  intros ops.
  apply (@OptLink_serialize_unset_raises _ _ ops "Root" unset_link_heap OptLink_new
           [] unset_link_ids); reflexivity.
Defined.

Lemma serialize_rejects_unset_link_witness :
  check_well_formed
    (@Maybe_Completable _ _ (generic_node example_schema 4) "Root"
       unset_link_heap example_root)
  = Ok () ∧
  ∃ msg,
    @serialize _ _ (generic_node example_schema 4) "Root" unset_link_heap example_root
    = Throw (Exn NotWellFormed msg).
Proof.
  split; [vm_compute; reflexivity|].
  apply (serialize_rejects_unset_link example_schema unset_link_heap 4 "Root"
           loc_R loc_B ("owner", OptLink_edge "Root" OptLink_new)).
  - vm_compute. lia.
  - eapply rtc_l; [|apply rtc_refl]. vm_compute.
    apply list_elem_of_further, list_elem_of_here.
  - vm_compute. apply list_elem_of_here.
  - exact I.
Defined.

(** The well-formed tree of [unset_link_heap] and the exception that
    [serialize] raises on it. *)
Example unset_link_tree_message (k : nat) :
  let ops := generic_node example_schema (2 + k) in
  check_well_formed (@Maybe_Completable _ _ ops "Root" unset_link_heap example_root)
  = Ok () ∧
  @serialize _ _ ops "Root" unset_link_heap example_root
  = Throw (Exn NotWellFormed "Link to node of type Root not found in tree").
Proof. destruct k; vm_compute; done. Qed.

(** * Further properties of the code *)

(** ** Sequence edges: how the members compose *)

(** X1.  [remove] undoes [add]: after a non-empty reference was appended,
    [remove()] gives the sequence back; after it was inserted at a position
    inside, [remove] at that position gives the sequence back. *)
Theorem Any_add_remove_inverse (self : Any) (v : Maybe) (pos : Z) :
  Maybe_empty v = false →
  signed_size_t_range pos →
  ((pos < 0 ∨ Z.of_nat (Any_size self) ≤ pos)%Z →
   Any_remove (Any_add self v pos) (-1) = self) ∧
  ((0 ≤ pos < Z.of_nat (Any_size self))%Z →
   Any_remove (Any_add self v pos) pos = self).
Proof.
  intros Hv Hr. destruct self as [vec]. unfold Any_add, Any_remove. rewrite Hv.
  unfold Any_size. simpl. split.
  - intros Hpos. rewrite (position_test_append _ _ Hr Hpos). simpl.
    rewrite bool_decide_eq_false_2 by (rewrite length_app; simpl; lia).
    f_equal. unfold vector_erase. rewrite length_app. simpl.
    replace (Z.to_nat (Z.of_nat (length vec + 1) - 1)) with (length vec) by lia.
    rewrite delete_middle. by rewrite app_nil_r.
  - intros Hpos. rewrite (position_test_inside _ _ Hr Hpos). simpl.
    assert (Z.to_nat pos ≤ length vec) as Hle by lia.
    rewrite bool_decide_eq_false_2
      by (rewrite vector_emplace_length by done; lia).
    rewrite vector_emplace_length by done.
    rewrite (position_test_inside (S (length vec)) pos Hr) by lia.
    f_equal. unfold vector_erase, vector_emplace.
    rewrite <- (length_take_le vec (Z.to_nat pos)) at 1 by done.
    rewrite delete_middle. apply take_drop.
Qed.

Lemma Any_add_remove_inverse_witness :
  let self := mk_Any [mk_Maybe (Some 1%positive); mk_Maybe (Some 2%positive)] in
  let v := mk_Maybe (Some 3%positive) in
  Any_remove (Any_add self v (-1)) (-1) = self ∧
  Any_remove (Any_add self v 1) 1 = self.
Proof.
  intros self v.
  assert (signed_size_t_range (-1)) as Hr1 by (split; [discriminate | reflexivity]).
  assert (signed_size_t_range 1) as Hr2 by (split; [discriminate | reflexivity]).
  destruct (Any_add_remove_inverse self v (-1) eq_refl Hr1) as [Happend _].
  destruct (Any_add_remove_inverse self v 1 eq_refl Hr2) as [_ Hinsert].
  split.
  - apply Happend. left. reflexivity.
  - apply Hinsert. split; [discriminate | reflexivity].
Defined.

(** X2.  On a sequence that is not empty, [front()] and [back()] return
    what [at(0)] and [at(size() - 1)] return, and [operator[]] is [at];
    after [add] appended a non-empty reference, [back()] returns it. *)
Theorem Any_front_back_at (self : Any) :
  0 < Any_size self →
  Any_at self 0 = Ok (Any_front self) ∧
  Any_at self (Any_size self - 1) = Ok (Any_back self) ∧
  Any_index self 0 = Ok (Any_front self) ∧
  (∀ v, Maybe_empty v = false → Any_back (Any_add self v (-1)) = v).
Proof.
  destruct self as [vec]. unfold Any_size, Any_index, Any_at, vector_at, Any_front,
    Any_back. simpl. intros Hsize.
  assert (vec !! 0 = Some (match vec with [] => Maybe_new | x :: _ => x end)) as Hfront.
  { destruct vec; [simpl in Hsize; lia | done]. }
  assert (last vec = vec !! (length vec - 1)) as Hlast.
  { rewrite last_lookup. f_equal. lia. }
  rewrite Hfront, <- Hlast.
  destruct (last vec) as [x|] eqn:Hl.
  - repeat split. intros v Hv. unfold Any_add. rewrite Hv. simpl.
    rewrite last_snoc. by rewrite Maybe_of_ptr_get_ptr.
  - apply last_None in Hl. subst vec. simpl in Hsize. lia.
Qed.

Lemma Any_front_back_at_witness :
  let self := mk_Any [mk_Maybe (Some 1%positive); mk_Maybe (Some 2%positive)] in
  Any_at self 0 = Ok (Any_front self) ∧
  Any_at self (Any_size self - 1) = Ok (Any_back self).
Proof.
  intros self.
  destruct (Any_front_back_at self (Nat.lt_0_succ _)) as (Hfront & Hback & _).
  exact (conj Hfront Hback).
Defined.

(** X3.  [extend] appends the contents of the other sequence, a distinct
    object, in order: the
    size is the sum of the sizes, the elements of the receiver keep their
    indices and the elements of the other sequence follow.  Unlike [add]
    it copies empty references too: the result stores non-empty references
    only when both sequences do. *)
Theorem Any_extend_appends (self other : Any) :
  Any_size (Any_extend self other) = Any_size self + Any_size other ∧
  (∀ i, i < Any_size self →
        Any_at (Any_extend self other) i = Any_at self i) ∧
  (∀ i, Any_at (Any_extend self other) (Any_size self + i) = Any_at other i) ∧
  (all_filled (Any_extend self other) ↔ all_filled self ∧ all_filled other) ∧
  Any_extend self Any_new = self.
Proof.
  destruct self as [vec], other as [vec']. unfold Any_extend, Any_size, Any_at,
    vector_at, all_filled. simpl. split; [|split; [|split; [|split]]].
  - apply length_app.
  - intros i Hi. by rewrite lookup_app_l.
  - intros i. rewrite lookup_app_r by apply Nat.le_add_r.
    by replace (length vec + i - length vec) with i by lia.
  - apply Forall_app.
  - by rewrite app_nil_r.
Qed.

(** X4.  [add_raw] with a null pointer raises [RuntimeError], which is
    neither a [NotWellFormed] nor an out-of-range error, where [add] with
    an empty reference does nothing; with any other pointer it stores the
    pointer exactly where [add] stores a reference to the same object. *)
Theorem Any_add_raw_agrees_with_add (self : Any) (pos : Z) :
  (∃ msg, Any_add_raw self None pos = Throw (Exn RuntimeError msg)) ∧
  instance_of RuntimeError NotWellFormed = false ∧
  instance_of RuntimeError std_out_of_range = false ∧
  Any_add self (mk_Maybe None) pos = self ∧
  (∀ p, Any_add_raw self (Some p) pos = Ok (Any_add self (mk_Maybe (Some p)) pos)).
Proof.
  split; [by eexists|]. split; [done|]. split; [done|]. split; [done|].
  intros p. unfold Any_add_raw, Any_add. simpl.
  by destruct (_ || _).
Qed.

(** ** Duplication *)

Lemma Any_add_append_size (self : Any) (ob : Maybe) :
  Any_size (Any_add self ob (-1)) =
  Any_size self + (if Maybe_empty ob then 0 else 1).
Proof.
  unfold Any_add, Any_size. destruct (Maybe_empty ob); simpl; [lia|].
  apply length_app.
Qed.

Lemma filled_count_cons (x : One) (vec : list One) :
  filled_count (x :: vec) = (if Maybe_empty x then 0 else 1) + filled_count vec.
Proof.
  unfold filled_count. rewrite filter_cons.
  destruct (decide (Maybe_empty x = false)) as [->|Hx]; [done|].
  by apply not_false_is_true in Hx as ->.
Qed.

Lemma copy_loop_filled {heap} (dup : heap → Maybe → result (One * heap))
    (vec : list One) (c0 c : Many) (h0 h' : heap) :
  for_each (λ sptr '(c, h), '(d, h) ← dup h sptr; Ok (Any_add c d (-1), h))
    vec (c0, h0) = Ok (c, h') →
  all_filled c0 →
  all_filled c ∧ Any_size c ≤ Any_size c0 + length vec ∧
  ((∀ h x d h1, dup h x = Ok (d, h1) → Maybe_empty d = Maybe_empty x) →
   Any_size c = Any_size c0 + filled_count vec).
Proof.
  revert c0 h0. induction vec as [|x vec IH]; intros c0 h0 Hrun Hfill.
  - simpl in Hrun. injection Hrun as <- <-. unfold filled_count. simpl.
    split; [done|]. split; lia.
  - simpl in Hrun. destruct (dup h0 x) as [[d h1]| |] eqn:Hd; try done.
    simpl in Hrun. apply IH in Hrun as (Hc & Hle & Heq);
      [|by apply Any_add_keeps_filled].
    rewrite Any_add_append_size in Hle, Heq. split; [done|]. split.
    + simpl. destruct (Maybe_empty d); lia.
    + intros Hdup. rewrite Heq by done. rewrite filled_count_cons.
      rewrite (Hdup _ _ _ _ Hd). lia.
Qed.

(** X5.  [Any::copy] and [Any::clone] build their result with [add]: the
    result holds non-empty references only and is never longer than the
    source, whatever the node's [copy] does; when the node's [copy] returns
    a non-empty reference, as a copy of an object does, the size of the
    result is the number of non-empty entries of the source: the empty
    entries are dropped. *)
Theorem Any_copy_drops_empty {heap} (node_copy node_clone : heap → loc → result (One * heap))
    (h h' : heap) (self : Any) (c : Many) :
  Any_copy node_copy h self = Ok (c, h') ∨ Any_clone node_clone h self = Ok (c, h') →
  all_filled c ∧ Any_size c ≤ Any_size self ∧
  ((∀ h p d h1, node_copy h p = Ok (d, h1) ∨ node_clone h p = Ok (d, h1) →
                Maybe_empty d = false) →
   Any_size c = filled_count (Any_vec self)).
Proof.
  unfold Any_copy, Any_clone. intros [Hrun|Hrun].
  - apply copy_loop_filled in Hrun as (Hc & Hle & Heq); [|by constructor].
    split; [done|]. split; [done|]. intros Hne. apply Heq.
    intros h0 [[p|]] d h1; unfold Maybe_copy; simpl.
    + intros Hd. apply (Hne h0 p d h1). by left.
    + by intros [= <- <-].
  - apply copy_loop_filled in Hrun as (Hc & Hle & Heq); [|by constructor].
    split; [done|]. split; [done|]. intros Hne. apply Heq.
    intros h0 [[p|]] d h1; unfold Maybe_clone; simpl.
    + intros Hd. apply (Hne h0 p d h1). by right.
    + by intros [= <- <-].
Qed.

Lemma Any_copy_drops_empty_witness :
  let node_copy := λ (next : positive) (p : loc),
    Ok (mk_Maybe (Some next), Pos.succ next) in
  let self := mk_Any [mk_Maybe (Some 1%positive); mk_Maybe None;
                      mk_Maybe (Some 2%positive)] in
  let c := mk_Any [mk_Maybe (Some 10%positive); mk_Maybe (Some 11%positive)] in
  Any_copy node_copy 10%positive self = Ok (c, 12%positive) ∧
  all_filled c ∧ Any_size c = filled_count (Any_vec self).
Proof.
  intros node_copy self c.
  assert (Any_copy node_copy 10%positive self = Ok (c, 12%positive)) as Hrun
    by reflexivity.
  destruct (Any_copy_drops_empty node_copy node_copy _ _ _ _ (or_introl Hrun))
    as (Hfilled & _ & Hsize).
  split; [exact Hrun|]. split; [exact Hfilled|]. apply Hsize.
  intros next p d h1 [Hd|Hd]; injection Hd as <- _; reflexivity.
Defined.

(** ** Equality and link observers, for every node type *)

Section EdgeMembers.
Context {heap link_ref : Type} `{!NodeOps heap link_ref}.

Lemma Maybe_equal_same (h : heap) (x : Maybe) : Maybe_equal h x x = Ok true.
Proof.
  destruct x as [[p|]]; unfold Maybe_equal; simpl; [|done].
  by rewrite bool_decide_eq_true_2.
Qed.

Lemma vector_equal_same (h : heap) (l : list One) : vector_equal h l l = Ok true.
Proof.
  induction l as [|x l IH]; [done|]. simpl. by rewrite Maybe_equal_same.
Qed.

(** X6.  [operator==] of the owning edges compares pointers before it
    compares nodes: an edge equals itself whatever the node's own equality
    does (it is not called); an empty edge equals exactly the empty edges;
    sequences of different sizes are unequal, and no exception can leave
    these comparisons. *)
Theorem owning_edge_equality (h : heap) (x y : Maybe) (a b : Any) :
  Maybe_equal h x x = Ok true ∧
  Any_equal h a a = Ok true ∧
  (Maybe_empty x = true →
   Maybe_equal h x y = Ok (Maybe_empty y) ∧ Maybe_equal h y x = Ok (Maybe_empty y)) ∧
  (Any_size a ≠ Any_size b → Any_equal h a b = Ok false).
Proof.
  split; [apply Maybe_equal_same|]. split; [|split].
  - unfold Any_equal. rewrite bool_decide_eq_true_2 by done.
    apply vector_equal_same.
  - destruct x as [[p|]], y as [[q|]]; done.
  - intros Hsize. unfold Any_equal. by rewrite bool_decide_eq_false_2.
Qed.

(** X7.  The four observers of a link agree: the link is empty exactly
    when its size is 0, exactly when [get_ptr] is null and exactly when
    dereferencing raises [OutOfRange]; otherwise dereferencing gives the
    stored target, which is alive.  A link whose target is no longer owned
    by anyone is empty. *)
Theorem OptLink_observers_agree (T : string) (h : heap) (self : OptLink) :
  (OptLink_empty h self = true ↔ OptLink_size h self = 0) ∧
  (OptLink_empty h self = true ↔ OptLink_get_ptr h self = None) ∧
  (OptLink_empty h self = true ↔
   ∃ msg, OptLink_deref T h self = Throw (Exn OutOfRange msg)) ∧
  (OptLink_empty h self = false ↔
   ∃ p, OptLink_deref T h self = Ok p ∧ OptLink_val self = Some p ∧
        alive h p = true) ∧
  (∀ p, OptLink_val self = Some p → alive h p = false →
        OptLink_empty h self = true).
Proof.
  destruct self as [[p|]]; unfold OptLink_empty, OptLink_size, OptLink_get_ptr,
    OptLink_deref, lock, expired; simpl.
  - destruct (alive h p) eqn:Hp; simpl.
    + repeat split; try done; try (intros [? ?]; done).
      * by exists p.
      * intros q [= <-]. by rewrite Hp.
    + repeat split; try done; try (by eexists).
      intros (q & ? & _). done.
  - repeat split; try done; try (by eexists).
    intros (q & ? & _). done.
Qed.

(** X8.  [operator==] of links compares the locked targets: two links are
    equal exactly when both are empty (never set, reset or expired, in any
    combination) or both are non-empty with the same target. *)
Theorem OptLink_equal_targets (h : heap) (a b : OptLink) :
  OptLink_equal h a b = true ↔
  (OptLink_empty h a = true ∧ OptLink_empty h b = true) ∨
  (OptLink_empty h a = false ∧ OptLink_empty h b = false ∧
   OptLink_val a = OptLink_val b).
Proof.
  unfold OptLink_equal, OptLink_get_ptr, OptLink_empty, lock.
  rewrite bool_decide_eq_true.
  destruct (expired h (OptLink_val a)) eqn:Ha, (expired h (OptLink_val b)) eqn:Hb.
  - split; [by left | done].
  - split.
    + intros Heq. rewrite <- Heq in Hb. done.
    + intros [[_ ?]|[? _]]; done.
  - split.
    + intros Heq. rewrite Heq in Ha. done.
    + intros [[? _]|[_ [? _]]]; done.
  - split.
    + intros Heq. by right.
    + intros [[? _]|(_ & _ & Heq)]; done.
Qed.

(** X9.  Phase 2 on a link: an optional link passes exactly when it is
    empty or its target has a sequence number; a mandatory link passes
    exactly when it is not empty and its target has a sequence number.
    Every failure is a [NotWellFormed]. *)
Theorem link_check_complete_passes (T : string) (h : heap) (self : OptLink)
    (map : PointerMap) :
  (OptLink_check_complete T h self map = Ok () ↔
   OptLink_empty h self = true ∨ is_Some (map !! OptLink_get_ptr h self)) ∧
  (Link_check_complete T h self map = Ok () ↔
   OptLink_empty h self = false ∧ is_Some (map !! OptLink_get_ptr h self)) ∧
  (∀ e, OptLink_check_complete T h self map = Throw e ∨
        Link_check_complete T h self map = Throw e →
        exn_type e = NotWellFormed) ∧
  OptLink_check_complete T h self map ≠ NoFuel ∧
  Link_check_complete T h self map ≠ NoFuel.
Proof.
  unfold OptLink_check_complete, Link_check_complete, PointerMap_get, get_raw, get.
  destruct (OptLink_empty h self) eqn:He; simpl.
  - repeat split; try done; try (by left); try (by intros [? ?]).
    intros e [?|[= <-]]; done.
  - destruct (map !! OptLink_get_ptr h self) as [i|] eqn:Hi; simpl.
    + repeat split; try done; try (by right); try (by eexists).
      intros e [?|?]; done.
    + repeat split; try done.
      * intros [?|[? ?]]; done.
      * intros [_ [? ?]]; done.
      * intros e [[= <-]|[= <-]]; done.
Qed.

End EdgeMembers.

Lemma owning_edge_equality_witness :
  let h := scenario_heap in
  let ops := generic_node example_schema 5 in
  let x := mk_Maybe None in
  let y := mk_Maybe (Some loc_A) in
  @Maybe_equal _ _ ops h x y = Ok false ∧
  @Any_equal _ _ ops h (mk_Any [y]) (mk_Any [y; y]) = Ok false.
Proof.
  intros h ops x y.
  destruct (@owning_edge_equality _ _ ops h x y (mk_Any [y]) (mk_Any [y; y]))
    as (_ & _ & Hempty & Hsize).
  split.
  - apply (Hempty eq_refl).
  - apply Hsize. discriminate.
Defined.

(** ** Encoders and decoders of the edges, for every node type *)

Section WireMembers.
Context {heap link_ref : Type} `{!NodeOps heap link_ref}.

(** The document of the empty tree. *)
Local Abbreviation empty_tree_document :=
  (cbor_map [("@T", cbor_string "?"); ("@t", cbor_null)]).

(** X10.  [serialize] runs both phases of the well-formedness check before
    it writes: it returns a document only for a tree that
    [check_well_formed] accepts, and what [check_well_formed] raises is
    raised by [serialize].  The empty tree is accepted: it is written as a
    map with a null ["@t"], and [deserialize] reads that document back as
    the empty tree without touching the heap. *)
Theorem serialize_checks_first (T : string) (h : heap) (tree : Maybe) :
  (∀ doc, serialize T h tree = Ok doc →
          check_well_formed (Maybe_Completable T h tree) = Ok ()) ∧
  (∀ e, check_well_formed (Maybe_Completable T h tree) = Throw e →
        serialize T h tree = Throw e) ∧
  serialize T h Maybe_new = Ok empty_tree_document ∧
  deserialize T h empty_tree_document = Ok (Maybe_new, h).
Proof.
  unfold serialize, check_well_formed. simpl. repeat split.
  - intros doc.
    destruct (Maybe_find_reachable T h tree ∅) as [ids| |]; [|done..]. simpl.
    by destruct (Maybe_check_complete T h tree ids) as [[]| |].
  - intros e.
    destruct (Maybe_find_reachable T h tree ∅) as [ids| |]; simpl; [|congruence..].
    by intros ->.
Qed.

Lemma encode_loop_items (T : string) (h : heap) (ids : PointerMap)
    (vec : list One) (ar0 ar : list cbor) :
  for_each
    (λ sptr ar,
       submap ← Maybe_serialize One_serdes_edge_type T h sptr [] ids;
       Ok (ar ++ [cbor_map submap]))
    vec ar0 = Ok ar →
  ∃ items, ar = ar0 ++ items ∧ length items = length vec ∧
    ∀ i x, vec !! i = Some x →
      ∃ sub, items !! i = Some (cbor_map sub) ∧
        (Maybe_empty x = true →
         sub = [("@T", cbor_string "1"); ("@t", cbor_null)]).
Proof.
  revert ar0. induction vec as [|x vec IH]; intros ar0 Hrun; simpl in Hrun.
  - injection Hrun as <-. exists []. by rewrite app_nil_r.
  - destruct (Maybe_serialize _ T h x [] ids) as [sub| |] eqn:Hx; [|done..].
    simpl in Hrun. apply IH in Hrun as (items & -> & Hlen & Hitems).
    exists (cbor_map sub :: items). rewrite <- app_assoc. split; [done|].
    split; [simpl; lia|]. intros [|i] y Hy; simpl in Hy.
    + injection Hy as <-. exists sub. split; [done|]. intros Hempty.
      destruct x as [[p|]]; [done|]. by injection Hx as <-.
    + by apply Hitems.
Qed.

(** X11.  The encoder of a sequence appends two entries to the map it is
    given: its tag and an array with one map per stored reference, in
    order; an empty reference in the sequence is written as a [One] with a
    null ["@t"].  The empty sequence is written with an empty array, by
    the [Many] encoder as well. *)
Theorem Any_serialize_items (edge_type T : string) (h : heap) (self : Any)
    (w m : MapWriter) (ids : PointerMap) :
  Any_serialize edge_type T h self w ids = Ok m →
  ∃ items,
    m = w ++ [("@T", cbor_string edge_type); ("@d", cbor_array items)] ∧
    length items = Any_size self ∧
    (∀ i x, Any_vec self !! i = Some x →
       ∃ sub, items !! i = Some (cbor_map sub) ∧
         (Maybe_empty x = true →
          sub = [("@T", cbor_string "1"); ("@t", cbor_null)])) ∧
    (Any_vec self = [] → items = []).
Proof.
  unfold Any_serialize. intros Hrun.
  destruct (for_each _ (Any_vec self) []) as [ar| |] eqn:Hloop; [|done..].
  simpl in Hrun. injection Hrun as <-.
  apply encode_loop_items in Hloop as (items & -> & Hlen & Hitems).
  exists items. unfold append_array, append_string. rewrite <- app_assoc.
  repeat split; try done.
  intros Hnil. rewrite Hnil in Hlen. by destruct items.
Qed.

Lemma Maybe_deserialize_null (edge_type T : string) (self r : Maybe)
    (map : MapReader) (st st' : heap * IdentifierMap link_ref) :
  Maybe_deserialize edge_type T self map st = Ok (r, st') →
  MapReader_at map "@t" = Ok cbor_null →
  r = Maybe_new ∧ st' = st.
Proof.
  unfold Maybe_deserialize. intros Hrun Hnull.
  destruct (MapReader_at map "@T" ≫= as_string) as [tag| |]; [|done..].
  simpl in Hrun. destruct (bool_decide (tag ≠ edge_type)); [done|].
  rewrite Hnull in Hrun. simpl in Hrun. by injection Hrun as <- <-.
Qed.

Lemma decode_loop_items (T : string) (items : list cbor) (c0 c : Any)
    (st0 st' : heap * IdentifierMap link_ref) :
  for_each
    (λ it '(self, st),
       m ← as_map it;
       '(one, st) ← One_of_reader T m st;
       Ok (mk_Any (Any_vec self ++ [one]), st))
    items (c0, st0) = Ok (c, st') →
  ∃ new, Any_vec c = Any_vec c0 ++ new ∧ length new = length items ∧
    (∀ c1, for_each
             (λ it '(self, st),
                m ← as_map it;
                '(one, st) ← One_of_reader T m st;
                Ok (mk_Any (Any_vec self ++ [one]), st))
             items (c1, st0) = Ok (mk_Any (Any_vec c1 ++ new), st')) ∧
    (∀ i sub, items !! i = Some (cbor_map sub) →
              MapReader_at sub "@t" = Ok cbor_null → new !! i = Some Maybe_new).
Proof.
  revert c0 st0. induction items as [|it items IH]; intros c0 st0 Hrun;
    simpl in Hrun.
  - injection Hrun as <- <-. exists []. rewrite app_nil_r. repeat split; try done.
    intros [c1]. simpl. by rewrite app_nil_r.
  - destruct (as_map it) as [m| |] eqn:Hm; [|done..]. simpl in Hrun.
    destruct (One_of_reader T m st0) as [[one st1]| |] eqn:Hone; [|done..].
    simpl in Hrun. apply IH in Hrun as (new & Hvec & Hlen & Hany & Hnull).
    exists (one :: new). simpl in Hvec. rewrite <- app_assoc in Hvec.
    split; [done|]. split; [simpl; lia|]. split.
    + intros c1. simpl. rewrite Hm. simpl. rewrite Hone. simpl.
      rewrite (Hany (mk_Any (Any_vec c1 ++ [one]))). simpl.
      by rewrite <- app_assoc.
    + intros [|i] sub Hi Ht; simpl in Hi; [|by eapply Hnull].
      injection Hi as ->. simpl in Hm. injection Hm as <-.
      by apply Maybe_deserialize_null in Hone as [-> _].
Qed.

(** X12.  The decoder of a sequence appends one entry per item of the
    ["@d"] array to the entries the sequence already has, in order, and
    what it appends does not depend on those entries.  Unlike [add] it
    keeps empty references: an item with a null ["@t"] becomes an empty
    entry. *)
Theorem Any_deserialize_appends (edge_type T : string) (self a : Any)
    (map : MapReader) (st st' : heap * IdentifierMap link_ref) :
  Any_deserialize edge_type T self map st = Ok (a, st') →
  ∃ items new,
    MapReader_at map "@d" ≫= as_array = Ok items ∧
    Any_vec a = Any_vec self ++ new ∧ length new = length items ∧
    Any_deserialize edge_type T Any_new map st = Ok (mk_Any new, st') ∧
    (∀ i sub, items !! i = Some (cbor_map sub) →
              MapReader_at sub "@t" = Ok cbor_null → new !! i = Some Maybe_new).
Proof.
  unfold Any_deserialize. intros Hrun.
  destruct (MapReader_at map "@T" ≫= as_string) as [tag| |]; [|done..].
  simpl in *. destruct (bool_decide (tag ≠ edge_type)); [done|].
  destruct (MapReader_at map "@d" ≫= as_array) as [items| |]; [|done..].
  simpl in *. apply decode_loop_items in Hrun as (new & Hvec & Hlen & Hany & Hnull).
  exists items, new. repeat split; try done.
Qed.

(** X13.  The decoder of an owning edge overrides what the edge held: its
    result does not depend on the previous content.  When ["@t"] is null
    the edge comes out empty and nothing is registered or allocated;
    otherwise the node is decoded first and then registered under the
    ["@i"] of the document, cast to [size_t]. *)
Theorem Maybe_deserialize_registers (edge_type T : string) (self r : Maybe)
    (map : MapReader) (st : heap * IdentifierMap link_ref) (h' : heap)
    (ids' : IdentifierMap link_ref) :
  Maybe_deserialize edge_type T self map st = Ok (r, (h', ids')) →
  (∀ other, Maybe_deserialize edge_type T other map st = Ok (r, (h', ids'))) ∧
  (MapReader_at map "@t" = Ok cbor_null → r = Maybe_new ∧ (h', ids') = st) ∧
  (MapReader_at map "@t" ≠ Ok cbor_null →
   ∃ i ids0,
     node_deserialize T map st = Ok (Maybe_val r, (h', ids0)) ∧
     MapReader_at map "@i" = Ok (cbor_int i) ∧
     nodes ids' !! to_size_t i = Some (Maybe_val r) ∧
     links ids' = links ids0).
Proof.
  intros Hrun. split; [|split].
  - intros other. revert Hrun. unfold Maybe_deserialize.
    destruct (MapReader_at map "@T" ≫= as_string) as [tag| |]; [|done..].
    simpl. destruct (bool_decide (tag ≠ edge_type)); [done|].
    destruct (MapReader_at map "@t") as [type| |]; [|done..]. simpl.
    by destruct (is_null type).
  - intros Hnull. by apply (Maybe_deserialize_null _ _ _ _ _ _ _ Hrun).
  - intros Hnot. revert Hrun. unfold Maybe_deserialize.
    destruct (MapReader_at map "@T" ≫= as_string) as [tag| |]; [|done..].
    simpl. destruct (bool_decide (tag ≠ edge_type)); [done|].
    destruct (MapReader_at map "@t") as [type| |]; [|done..]. simpl.
    destruct type; try done; simpl;
      (destruct (node_deserialize T map st) as [[val [h1 ids1]]| |]; [|done..]);
      simpl;
      (destruct (MapReader_at map "@i") as [[]| |]; try done); simpl;
      intros [= <- <- <-]; eexists _, ids1;
      (split; [done|]); (split; [done|]); (split; [|done]);
      simpl; apply lookup_insert_eq.
Qed.

(** X14.  The decoder of a link checks the tag and nothing else: the
    decoded link is empty, whatever ["@l"] says, and neither the heap
    nor the identifier map changes; in particular what the link encoder
    wrote for a link with a target is decoded as a link without one. *)
Theorem OptLink_deserialize_resets (edge_type T : string) (self : OptLink)
    (map : MapReader) (st : heap * IdentifierMap link_ref) :
  (∀ l st', OptLink_deserialize edge_type T self map st = Ok (l, st') →
            l = OptLink_new ∧ st' = st ∧
            MapReader_at map "@T" = Ok (cbor_string edge_type) ∧
            ∀ h, OptLink_empty h l = true) ∧
  (∀ h x ids m, OptLink_serialize edge_type T h x [] ids = Ok m →
                OptLink_deserialize edge_type T self m st = Ok (OptLink_new, st)).
Proof.
  split.
  - intros l st'. unfold OptLink_deserialize.
    destruct (MapReader_at map "@T") as [[]| |]; try done. simpl.
    destruct (bool_decide (s ≠ edge_type)) eqn:Htag; [done|].
    apply bool_decide_eq_false in Htag. apply dec_stable in Htag as ->.
    by intros [= <- <-].
  - intros h x ids m. unfold OptLink_serialize.
    destruct (PointerMap_get T (OptLink_get_ptr h x) ids) as [i| |]; [|done..].
    simpl. intros [= <-]. unfold OptLink_deserialize. simpl.
    by rewrite bool_decide_eq_false_2 by (intros Hne; by apply Hne).
Qed.

(** X15.  The six classes write six different tags, and what the encoder
    of one class wrote into a fresh map is rejected with the schema error
    by every decoder that expects another tag (for a non-empty owning
    edge: provided that the node's encoder only appends to the map). *)
Theorem encoded_tag_is_checked (edge_type expected T : string) (h : heap)
    (ids : PointerMap) (m : MapWriter) :
  edge_type ≠ expected →
  (∃ a, Any_serialize edge_type T h a [] ids = Ok m) ∨
  (∃ l, OptLink_serialize edge_type T h l [] ids = Ok m) ∨
  (∃ x, Maybe_serialize edge_type T h x [] ids = Ok m ∧
        ∀ p w w', node_serialize h p w ids = Ok w' → ∃ s, w' = w ++ s) →
  NoDup [Maybe_serdes_edge_type; One_serdes_edge_type; Any_serdes_edge_type;
         Many_serdes_edge_type; OptLink_serdes_edge_type; Link_serdes_edge_type] ∧
  ∀ T' (st : heap * IdentifierMap link_ref),
    (∀ x, Maybe_deserialize expected T' x m st = Throw schema_error) ∧
    (∀ x, Any_deserialize expected T' x m st = Throw schema_error) ∧
    (∀ x, OptLink_deserialize expected T' x m st = Throw schema_error).
Proof.
  intros Hne Hm. split.
  { by apply (bool_decide_unpack _). }
  assert (MapReader_at m "@T" = Ok (cbor_string edge_type)) as Htag.
  { destruct Hm as [[a Ha]|[[l Hl]|(x & Hx & Hnode)]].
    - revert Ha. unfold Any_serialize.
      destruct (for_each _ (Any_vec a) []); [|done..]. simpl. by intros [= <-].
    - revert Hl. unfold OptLink_serialize.
      destruct (PointerMap_get _ _ _); [|done..]. simpl. by intros [= <-].
    - revert Hx. unfold Maybe_serialize. destruct (Maybe_val x) as [p|].
      + destruct (PointerMap_get _ _ _) as [i| |]; [|done..]. simpl.
        intros Hx. apply Hnode in Hx as [s ->]. done.
      + by intros [= <-]. }
  intros T' st. split; [|split]; intros x.
  - by apply (Maybe_decoder_checks_tag _ _ edge_type).
  - by apply (Any_decoder_checks_tag _ _ edge_type).
  - by apply (OptLink_decoder_checks_tag _ _ edge_type).
Qed.

End WireMembers.

(** ** The shape of the owning edges *)

Lemma elem_of_concat {A} (x : A) (ls : list (list A)) :
  x ∈ concat ls ↔ ∃ l, x ∈ l ∧ l ∈ ls.
Proof.
  induction ls as [|l ls IH]; simpl.
  - split; [by intros ?%elem_of_nil | by intros (l & _ & ?%elem_of_nil)].
  - rewrite elem_of_app, IH. split.
    + intros [Hx|(l' & Hx & Hl')]; [exists l | exists l'];
        (split; [done|]); [by left | by right].
    + intros (l' & Hx & [->|Hl']%elem_of_cons); [by left|]. right. by exists l'.
Qed.

Section PreorderListing.
Variable h : object_heap.

(** Induction over a pre-order listing, with the induction hypothesis for
    the listings of the owned nodes. *)
Lemma dfs_preorder_listing_ind (P : loc → list loc → Prop) :
  (∀ p subs,
     Forall2 (dfs_preorder h) (node_owned h p) subs →
     Forall2 P (node_owned h p) subs →
     P p (p :: concat subs)) →
  ∀ p order, dfs_preorder h p order → P p order.
Proof.
  intros step. fix IH 3. intros p order [p' subs Hsubs].
  apply step; [exact Hsubs|].
  revert Hsubs. generalize (node_owned h p'). revert subs.
  fix IHs 3. intros subs targets [|x y l l' Hxy Hrest].
  - constructor.
  - constructor; [apply IH, Hxy | apply IHs, Hrest].
Qed.

Lemma dfs_preorder_reachable (p : loc) (order : list loc) :
  dfs_preorder h p order → ∀ q, q ∈ order → rtc (owns h) p q.
Proof.
  revert p order. apply (dfs_preorder_listing_ind (λ p order, ∀ q, q ∈ order → rtc (owns h) p q)).
  intros p subs _ IH q [->|Hq]%elem_of_cons; [apply rtc_refl|].
  apply elem_of_concat in Hq as (sub & Hq & Hsub).
  apply list_elem_of_lookup in Hsub as [i Hi].
  destruct (Forall2_lookup_r _ _ _ _ _ IH Hi) as (c & Hc & Hreach).
  eapply rtc_l; [|by apply Hreach].
  unfold owns. by eapply list_elem_of_lookup_2.
Qed.

Lemma dfs_preorder_lists_reachable (p q : loc) :
  rtc (owns h) p q → ∀ order, dfs_preorder h p order → q ∈ order.
Proof.
  induction 1 as [p|p c q Hown _ IH]; intros order Hdfs.
  - destruct Hdfs. by left.
  - destruct Hdfs as [p subs Hsubs]. right.
    apply list_elem_of_lookup in Hown as [i Hi].
    destruct (Forall2_lookup_l _ _ _ _ _ Hsubs Hi) as (sub & Hsub & Hdfs).
    apply elem_of_concat. exists sub. split; [by apply IH|].
    by eapply list_elem_of_lookup_2.
Qed.

Lemma concat_listing_permutation (cs : list loc) (subs : list (list loc)) :
  Forall2 (λ c sub, sub ≡ₚ c :: flat_map (node_owned h) sub) cs subs →
  concat subs ≡ₚ cs ++ flat_map (node_owned h) (concat subs).
Proof.
  induction 1 as [|c sub cs subs Hsub _ IH]; [done|]. simpl.
  rewrite flat_map_app. rewrite IH at 1. rewrite Hsub at 1. simpl.
  f_equiv. apply Permutation_app_swap_app.
Qed.

(** Every listed node but the first is owned once, by a listed node. *)
Lemma dfs_preorder_owned (p : loc) (order : list loc) :
  dfs_preorder h p order → order ≡ₚ p :: flat_map (node_owned h) order.
Proof.
  revert p order.
  apply (dfs_preorder_listing_ind (λ p order, order ≡ₚ p :: flat_map (node_owned h) order)).
  intros p subs _ IH. simpl. f_equiv. by apply concat_listing_permutation.
Qed.

End PreorderListing.

(** ** Phase 1 accepts every tree *)

Section GenericShape.
Variable schema : node_schema.
Variable h : object_heap.

Local Abbreviation ops fuel := (generic_node schema fuel).

Lemma follows_preorder_nil : follows_preorder h [] (λ m, Ok m).
Proof.
  intros acc m subs Hnum Hsubs _. apply Forall2_nil_inv_l in Hsubs as ->.
  simpl. by rewrite app_nil_r.
Qed.

Lemma follows_preorder_app (ts1 ts2 : list loc)
    (run1 run2 : PointerMap → result PointerMap) :
  follows_preorder h ts1 run1 → follows_preorder h ts2 run2 →
  follows_preorder h (ts1 ++ ts2) (λ m, m1 ← run1 m; run2 m1).
Proof.
  intros H1 H2 acc m subs Hnum Hsubs Hnodup.
  apply Forall2_app_inv_l in Hsubs as (s1 & s2 & Hs1 & Hs2 & ->).
  rewrite concat_app, app_assoc in Hnodup. rewrite concat_app, app_assoc.
  assert (NoDup (acc ++ concat s1)) as Hnodup1
    by (by apply NoDup_app in Hnodup as [? _]).
  specialize (H1 acc m s1 Hnum Hs1 Hnodup1).
  destruct (run1 m) as [m1| |]; simpl; [|done..].
  exact (H2 _ m1 s2 H1 Hs2 Hnodup).
Qed.

Lemma Maybe_follows_preorder (fuel : nat) (T : string) (e : Maybe) :
  node_follows_preorder schema h fuel →
  follows_preorder h (option_list (Maybe_val e))
    (@Maybe_find_reachable _ _ (ops fuel) T h e).
Proof.
  intros Hnode acc m subs Hnum Hsubs Hnodup. unfold Maybe_find_reachable.
  destruct e as [[q|]]; simpl in *.
  - apply Forall2_cons_inv_l in Hsubs as (sub & rest & Hsub & Hrest & ->).
    apply Forall2_nil_inv_l in Hrest as ->.
    destruct Hsub as [q subs Hsubs]. simpl in Hnodup. rewrite app_nil_r in Hnodup.
    simpl. rewrite app_nil_r.
    assert (m !! Some q = None) as Hfresh.
    { destruct (m !! Some q) as [i|] eqn:Hq; [|done]. exfalso.
      destruct Hnum as (_ & _ & _ & Hnum). apply Hnum in Hq.
      apply NoDup_app in Hnodup as (_ & Hdisjoint & _).
      apply (Hdisjoint q); [by eapply list_elem_of_lookup_2 | by left]. }
    unfold PointerMap_add, add_raw, get. rewrite Hfresh. simpl.
    replace (acc ++ q :: concat subs) with ((acc ++ [q]) ++ concat subs) in *
      by (by rewrite <- app_assoc).
    exact (Hnode q (acc ++ [q]) _ subs (numbering_snoc _ _ _ Hnum Hfresh) Hsubs Hnodup).
  - by apply (follows_preorder_nil acc m subs).
Qed.

Lemma Any_follows_preorder (fuel : nat) (T : string) (e : Any) :
  node_follows_preorder schema h fuel →
  follows_preorder h (omap Maybe_val (Any_vec e))
    (@Any_find_reachable _ _ (ops fuel) T h e).
Proof.
  intros Hnode. destruct e as [vec]. unfold Any_find_reachable. simpl.
  induction vec as [|x vec IH]; [apply follows_preorder_nil|].
  pose proof (follows_preorder_app _ _ _ _
                (Maybe_follows_preorder fuel T x Hnode) IH) as Happ.
  simpl. destruct x as [[q|]]; exact Happ.
Qed.

Lemma edge_follows_preorder (fuel : nat) (e : edge) :
  node_follows_preorder schema h fuel →
  follows_preorder h (edge_owned e) (@edge_find_reachable (ops fuel) h e).
Proof.
  intros Hnode. destruct e as [T e|T e|T e|T e|T e|T e]; simpl.
  - by apply Maybe_follows_preorder.
  - by apply Maybe_follows_preorder.
  - by apply Any_follows_preorder.
  - by apply Any_follows_preorder.
  - exact follows_preorder_nil.
  - exact follows_preorder_nil.
Qed.

Lemma members_follow_preorder (fuel : nat) (members : list (string * edge)) :
  node_follows_preorder schema h fuel →
  follows_preorder h
    (flat_map (λ member : string * edge, edge_owned member.2) members)
    (for_each (λ member map, @edge_find_reachable (ops fuel) h member.2 map) members).
Proof.
  intros Hnode. induction members as [|member members IH];
    [apply follows_preorder_nil|].
  exact (follows_preorder_app _ _ _ _
           (edge_follows_preorder fuel member.2 Hnode) IH).
Qed.

Lemma node_follows_preorder_all (fuel : nat) : node_follows_preorder schema h fuel.
Proof.
  induction fuel as [|fuel IH]; intros p.
  - by intros acc m subs _ _ _.
  - apply (members_follow_preorder fuel _ IH).
Qed.

(** Phase 1 does not raise on a tree. *)
Lemma find_reachable_accepts_tree (fuel : nat) (T : string) (root : loc) (e : exn) :
  tree_shaped h root →
  @Maybe_find_reachable _ _ (ops fuel) T h (mk_Maybe (Some root)) ∅ ≠ Throw e.
Proof.
  intros (order & Hdfs & Hnodup) Hrun.
  pose proof (Maybe_follows_preorder fuel T (mk_Maybe (Some root))
                (node_follows_preorder_all fuel) [] ∅ [order] numbering_empty) as H.
  simpl in H. rewrite app_nil_r in H. rewrite Hrun in H.
  apply H; [|done]. constructor; [done|constructor].
Qed.

End GenericShape.

(** ** Phase 2 decides soundness *)

Lemma decides_bind {A B : Type} (r : result A) (k : A → result B) (P Q : Prop) :
  decides r P → (∀ a, P → decides (k a) Q) → decides (r ≫= k) (P ∧ Q).
Proof.
  destruct r as [a|e|]; simpl; [|tauto..].
  intros HP Hk. specialize (Hk a HP). destruct (k a); simpl in *; tauto.
Qed.

Lemma decides_iff {A : Type} (r : result A) (P Q : Prop) :
  (P ↔ Q) → decides r P → decides r Q.
Proof. destruct r; simpl; tauto. Qed.

Lemma subtree_sound_unfold (h : object_heap) (known : loc → Prop) (p : loc) :
  subtree_sound h known p ↔
  node_sound h known p ∧ ∀ q, q ∈ node_owned h p → subtree_sound h known q.
Proof.
  split.
  - intros Hsound. split; [apply Hsound, rtc_refl|].
    intros q Hq r Hr. apply Hsound. by eapply rtc_l.
  - intros [Hnode Hsubs] q Hpath.
    apply rtc_inv in Hpath as [<-|(r & Hown & Hrest)]; [done|].
    by apply (Hsubs r).
Qed.

Lemma subtree_sound_known (h : object_heap) (known known' : loc → Prop) (p : loc) :
  (∀ t, known t ↔ known' t) →
  subtree_sound h known p ↔ subtree_sound h known' p.
Proof.
  intros Hknown.
  assert (∀ k k' : loc → Prop, (∀ t, k t → k' t) →
          subtree_sound h k p → subtree_sound h k' p) as Hmono.
  { intros k k' Hk Hsound q Hq member Hmember.
    destruct (Hsound q Hq member Hmember) as [Hlacks Hres]. split; [done|].
    destruct (member.2) as [T e|T e|T e|T e|T e|T e]; simpl in *; try done.
    - destruct Hres as [?|(t & ? & ?)]; [by left|]. right. exists t. auto.
    - destruct Hres as [? (t & ? & ?)]. split; [done|]. exists t. auto. }
  split; apply Hmono; intros t; apply Hknown.
Qed.

Section GenericDecision.
Variable schema : node_schema.
Variable h : object_heap.

Local Abbreviation ops fuel := (generic_node schema fuel).

Lemma Maybe_decided (fuel : nat) (T : string) (e : Maybe) (m m' mc : PointerMap) :
  node_decided schema h fuel →
  @Maybe_find_reachable _ _ (ops fuel) T h e m = Ok m' →
  decides (@Maybe_check_complete _ _ (ops fuel) T h e mc)
          (∀ q, q ∈ option_list (Maybe_val e) → subtree_sound h (registered mc) q).
Proof.
  intros Hnode. unfold Maybe_find_reachable, Maybe_check_complete.
  destruct e as [[p|]]; simpl.
  - unfold PointerMap_add, add_raw, get.
    destruct (m !! Some p); [done|]. simpl. intros Hrun.
    eapply decides_iff; [|by eapply Hnode]. split.
    + by intros Hp q ->%list_elem_of_singleton.
    + intros Hq. apply Hq. by left.
  - intros _ q Hq. by apply elem_of_nil in Hq.
Qed.

Lemma One_decided (fuel : nat) (T : string) (e : One) (m m' mc : PointerMap) :
  node_decided schema h fuel →
  @Maybe_find_reachable _ _ (ops fuel) T h e m = Ok m' →
  decides (@One_check_complete _ _ (ops fuel) T h e mc)
          (Maybe_val e ≠ None ∧
           ∀ q, q ∈ option_list (Maybe_val e) → subtree_sound h (registered mc) q).
Proof.
  intros Hnode Hrun.
  pose proof (Maybe_decided fuel T e m m' mc Hnode Hrun) as Hv.
  unfold One_check_complete, Maybe_check_complete in *.
  destruct e as [[p|]]; simpl in *.
  - eapply decides_iff; [|exact Hv]. split; [done|tauto].
  - split; [done|]. by intros [? _].
Qed.

Lemma vector_decided (fuel : nat) (T : string) (vec : list One)
    (m m' mc : PointerMap) :
  node_decided schema h fuel →
  for_each (λ sptr map, @Maybe_find_reachable _ _ (ops fuel) T h sptr map) vec m = Ok m' →
  decides (for_each (λ sptr _, @One_check_complete _ _ (ops fuel) T h sptr mc) vec ())
          ((Maybe_new ∉ vec) ∧
           ∀ q, q ∈ omap Maybe_val vec → subtree_sound h (registered mc) q).
Proof.
  intros Hnode. revert m. induction vec as [|x vec IH]; intros m; simpl.
  - intros _. split; [apply not_elem_of_nil|]. intros q Hq. by apply elem_of_nil in Hq.
  - destruct (Maybe_find_reachable T h x m) as [m1| |] eqn:Hx; simpl; [|done..].
    intros Hrest.
    eapply decides_iff;
      [|eapply decides_bind;
          [by eapply (One_decided fuel T x m m1 mc)|intros [] _; by eapply IH]].
    destruct x as [[p|]]; simpl; split.
    + intros ([_ Hp] & Hvec & Hsubs). split.
      * intros [?|Hin]%elem_of_cons; [done|by apply Hvec].
      * intros q [->|Hq]%elem_of_cons; [apply Hp; by left|by apply Hsubs].
    + intros [Hvec Hsubs]. split; [split; [done|]|split].
      * intros q ->%list_elem_of_singleton. apply Hsubs. by left.
      * intros Hin. apply Hvec. by right.
      * intros q Hq. apply Hsubs. by right.
    + by intros ([? _] & _).
    + intros [Hvec _]. exfalso. apply Hvec. by left.
Qed.

Lemma OptLink_decided (fuel : nat) (T : string) (l : OptLink) (mc : PointerMap) :
  decides (@OptLink_check_complete _ _ (ops fuel) T h l mc)
          (link_unset h l ∨ link_target_in (registered mc) l) ∧
  decides (@Link_check_complete _ _ (ops fuel) T h l mc)
          (¬ link_unset h l ∧ link_target_in (registered mc) l).
Proof.
  pose proof (link_unset_empty schema h fuel l) as Hunset.
  unfold OptLink_check_complete, Link_check_complete, OptLink_get_ptr, lock.
  unfold OptLink_empty in *.
  destruct (expired h (OptLink_val l)) eqn:Hexp; simpl.
  - split; [left; by apply Hunset|]. split; [done|]. intros [Hset _].
    apply Hset. by apply Hunset.
  - assert (¬ link_unset h l) as Hset by (intros ?%Hunset; done).
    destruct (OptLink_val l) as [t|] eqn:Hval; [|done].
    unfold PointerMap_get, get_raw, get.
    destruct (mc !! Some t) as [i|] eqn:Ht; simpl.
    + assert (link_target_in (registered mc) l) as Hin.
      { exists t. split; [done|]. by exists i. }
      split; [by right | done].
    + assert (¬ link_target_in (registered mc) l) as Hout.
      { intros (t' & Hval' & [i Hi]). rewrite Hval in Hval'.
        injection Hval' as <-. congruence. }
      split; (split; [done|tauto]).
Qed.

Lemma edge_decided (fuel : nat) (e : edge) (m m' mc : PointerMap) :
  node_decided schema h fuel →
  @edge_find_reachable (ops fuel) h e m = Ok m' →
  decides (@edge_check_complete (ops fuel) h e mc)
          ((¬ edge_lacks e ∧ edge_resolved h (registered mc) e) ∧
           ∀ q, q ∈ edge_owned e → subtree_sound h (registered mc) q).
Proof.
  intros Hnode. destruct e as [T e|T e|T e|T e|T e|T e]; simpl.
  - intros Hrun. eapply decides_iff; [|by eapply Maybe_decided]. tauto.
  - intros Hrun. eapply decides_iff; [|by eapply One_decided]. tauto.
  - destruct e as [vec]. unfold Any_find_reachable, Any_check_complete. simpl.
    intros Hrun. eapply decides_iff; [|by eapply vector_decided]. tauto.
  - destruct e as [vec]. unfold Any_find_reachable, Many_check_complete,
      Any_check_complete, Any_empty. simpl.
    intros Hrun. case_bool_decide as Hnil; [simpl; tauto|].
    eapply decides_iff; [|by eapply vector_decided]. tauto.
  - intros _. eapply decides_iff; [|apply (OptLink_decided fuel T e mc)].
    split; [intros ?|intros [[_ ?] _]; done].
    split; [tauto|]. intros q Hq. by apply elem_of_nil in Hq.
  - intros _. eapply decides_iff; [|apply (OptLink_decided fuel T e mc)].
    split; [intros ?|intros [[_ ?] _]; done].
    split; [tauto|]. intros q Hq. by apply elem_of_nil in Hq.
Qed.

Lemma members_decided (fuel : nat) (members : list (string * edge))
    (m m' mc : PointerMap) :
  node_decided schema h fuel →
  for_each (λ member map, @edge_find_reachable (ops fuel) h member.2 map) members m
  = Ok m' →
  decides (for_each (λ member _, @edge_check_complete (ops fuel) h member.2 mc)
             members ())
          ((∀ member, member ∈ members →
              ¬ edge_lacks member.2 ∧ edge_resolved h (registered mc) member.2) ∧
           ∀ q, q ∈ flat_map (λ member : string * edge, edge_owned member.2) members →
                subtree_sound h (registered mc) q).
Proof.
  intros Hnode. revert m. induction members as [|member members IH]; intros m; simpl.
  - intros _. split; intros x Hx; by apply elem_of_nil in Hx.
  - destruct (edge_find_reachable h member.2 m) as [m1| |] eqn:Hx; simpl; [|done..].
    intros Hrest.
    eapply decides_iff;
      [|eapply decides_bind;
          [by eapply (edge_decided fuel member.2 m m1 mc)|intros [] _; by eapply IH]].
    split.
    + intros ([Hhere Hsub] & Hmembers & Hsubs). split.
      * intros x [->|Hin]%elem_of_cons; [done|by apply Hmembers].
      * intros q [Hq|Hq]%elem_of_app; [by apply Hsub|by apply Hsubs].
    + intros [Hmembers Hsubs]. split; [split|split].
      * apply Hmembers. by left.
      * intros q Hq. apply Hsubs. apply elem_of_app. by left.
      * intros x Hin. apply Hmembers. by right.
      * intros q Hq. apply Hsubs. apply elem_of_app. by right.
Qed.

Lemma node_decided_all (fuel : nat) : node_decided schema h fuel.
Proof.
  induction fuel as [|fuel IH]; intros p m m' mc Hrun; [discriminate Hrun|].
  eapply decides_iff; [|exact (members_decided fuel _ m m' mc IH Hrun)].
  symmetry. apply subtree_sound_unfold.
Qed.

End GenericDecision.

(** ** What [check_well_formed] accepts *)

Lemma elem_of_flat_map {A B} (f : A → list B) (l : list A) (y : B) :
  y ∈ flat_map f l ↔ ∃ x, x ∈ l ∧ y ∈ f x.
Proof.
  induction l as [|a l IH]; simpl.
  - split; [by intros ?%elem_of_nil | by intros (x & ?%elem_of_nil & _)].
  - rewrite elem_of_app, IH. split.
    + intros [Hy|(x & Hx & Hy)]; [exists a | exists x];
        (split; [|done]); [by left | by right].
    + intros (x & [->|Hx]%elem_of_cons & Hy); [by left|]. right. by exists x.
Qed.

Lemma NoDup_flat_map_parts {A B} (f : A → list B) (l : list A) :
  NoDup (flat_map f l) →
  (∀ x, x ∈ l → NoDup (f x)) ∧
  (∀ x y q, x ∈ l → y ∈ l → q ∈ f x → q ∈ f y → x = y).
Proof.
  induction l as [|a l IH]; simpl.
  - intros _. split; [by intros x ?%elem_of_nil | by intros x y q ?%elem_of_nil].
  - intros (Ha & Hdisjoint & Hrest)%NoDup_app.
    destruct (IH Hrest) as [IH1 IH2]. split.
    + intros x [->|Hx]%elem_of_cons; [done|by apply IH1].
    + intros x y q [->|Hx]%elem_of_cons [->|Hy]%elem_of_cons Hqx Hqy.
      * done.
      * exfalso. apply (Hdisjoint q Hqx). apply elem_of_flat_map. by exists y.
      * exfalso. apply (Hdisjoint q Hqy). apply elem_of_flat_map. by exists x.
      * by apply (IH2 x y q).
Qed.

(** In a tree no reachable node owns the root, no node owns a node twice
    and no two reachable nodes own the same node. *)
Lemma tree_shaped_single_owner (h : object_heap) (root : loc) :
  tree_shaped h root →
  (∀ p, rtc (owns h) root p → ¬ owns h p root) ∧
  (∀ p, rtc (owns h) root p → NoDup (node_owned h p)) ∧
  (∀ p1 p2 q, rtc (owns h) root p1 → rtc (owns h) root p2 →
              owns h p1 q → owns h p2 q → p1 = p2).
Proof.
  intros (order & Hdfs & Hnodup).
  pose proof (dfs_preorder_owned h root order Hdfs) as Hperm.
  rewrite Hperm in Hnodup. apply NoDup_cons in Hnodup as [Hroot Hnodup].
  apply NoDup_flat_map_parts in Hnodup as [Hparts Hunique].
  pose proof (λ p Hp, dfs_preorder_lists_reachable h root p Hp order Hdfs) as Hlisted.
  split; [|split].
  - intros p Hp Hown. apply Hroot. apply elem_of_flat_map. exists p. auto.
  - intros p Hp. apply Hparts. auto.
  - intros p1 p2 q Hp1 Hp2. apply Hunique; auto.
Qed.

Lemma numbering_registered (order : list loc) (map : PointerMap) (q : loc) :
  numbering order map → registered map q ↔ q ∈ order.
Proof.
  intros (_ & _ & _ & Hnum). unfold registered. split.
  - intros [i Hi]. apply Hnum in Hi. by eapply list_elem_of_lookup_2.
  - intros [i Hi]%list_elem_of_lookup. exists i. by apply Hnum.
Qed.

Section GenericValidation.
Variable schema : node_schema.
Variable h : object_heap.

Local Abbreviation ops fuel := (generic_node schema fuel).

Lemma find_reachable_reachable (fuel : nat) (T : string) (root : loc)
    (map : PointerMap) :
  @Maybe_find_reachable _ _ (ops fuel) T h (mk_Maybe (Some root)) ∅ = Ok map →
  tree_shaped h root ∧ map !! None = None ∧
  ∀ q, registered map q ↔ rtc (owns h) root q.
Proof.
  intros Hrun.
  destruct (find_reachable_preorder schema h fuel T root map Hrun)
    as (order & Hdfs & Hnum).
  split; [|split].
  - exists order. split; [done|]. by destruct Hnum.
  - by destruct Hnum as (_ & ? & _).
  - intros q. rewrite (numbering_registered order map q Hnum). split.
    + by apply dfs_preorder_reachable.
    + intros Hq. by apply (dfs_preorder_lists_reachable h root q).
Qed.

(** With more fuel than there are live objects, [check_well_formed]
    decides whether the owning edges below the root form a tree whose
    mandatory edges are filled and whose links stay inside the tree. *)
Lemma check_well_formed_decided (fuel : nat) (T : string) (root : loc) :
  size h < fuel →
  decides (check_well_formed
             (@Maybe_Completable _ _ (ops fuel) T h (mk_Maybe (Some root))))
          (tree_shaped h root ∧ subtree_sound h (rtc (owns h) root) root).
Proof.
  intros Hfuel. unfold check_well_formed. simpl.
  destruct (find_reachable_settles schema h fuel T (mk_Maybe (Some root)) Hfuel)
    as [[map Hrun]|[msg Hrun]]; rewrite Hrun; simpl.
  - destruct (find_reachable_reachable fuel T root map Hrun) as (Htree & _ & Hreg).
    assert (decides (@node_check_complete _ _ (ops fuel) h root map)
                    (subtree_sound h (registered map) root)) as Hd.
    { unfold Maybe_find_reachable, PointerMap_add, add_raw, get in Hrun.
      simpl in Hrun. destruct (∅ !! Some root); [done|]. simpl in Hrun.
      by eapply node_decided_all. }
    unfold Maybe_check_complete. simpl.
    eapply decides_iff; [|exact Hd].
    rewrite (subtree_sound_known h _ _ root Hreg). tauto.
  - split; [done|]. intros [Htree _].
    exact (find_reachable_accepts_tree schema h fuel T root _ Htree Hrun).
Qed.

Lemma decides_rejects {A : Type} (r : result A) (P : Prop) :
  decides r P → ¬ P → ∃ msg, r = Throw (Exn NotWellFormed msg).
Proof.
  destruct r as [a|[c msg]|]; simpl; [tauto| |tauto].
  intros [-> _] _. by exists msg.
Qed.

End GenericValidation.

(** X16.  Phase 1 registers exactly the nodes that the root reaches
    through owning edges: a node has a sequence number in the returned map
    if and only if a chain of owning edges leads from the root to it.
    Links are not followed, and the null pointer is never registered. *)
Theorem find_reachable_registers_reachable (schema : node_schema)
    (h : object_heap) (fuel : nat) (T : string) (root : loc) (map : PointerMap) :
  @Maybe_find_reachable _ _ (generic_node schema fuel) T h (mk_Maybe (Some root)) ∅
  = Ok map →
  (∀ q, is_Some (map !! Some q) ↔ rtc (owns h) root q) ∧
  map !! None = None.
Proof.
  intros Hrun.
  destruct (find_reachable_reachable schema h fuel T root map Hrun)
    as (_ & Hnull & Hreg).
  split; [exact Hreg | exact Hnull].
Qed.

Lemma find_reachable_registers_reachable_witness :
  ∃ map,
    @Maybe_find_reachable _ _ (generic_node example_schema 4) "Root"
      scenario_heap example_root ∅ = Ok map ∧
    (∀ q, is_Some (map !! Some q) ↔ rtc (owns scenario_heap) loc_R q) ∧
    map !! None = None.
Proof.
  destruct (@Maybe_find_reachable _ _ (generic_node example_schema 4) "Root"
              scenario_heap example_root ∅) as [map| |] eqn:Hrun;
    [|vm_compute in Hrun; discriminate Hrun..].
  exists map. split; [reflexivity|].
  exact (find_reachable_registers_reachable example_schema scenario_heap 4 "Root"
           loc_R map Hrun).
Defined.

(** X17.  Sharing is rejected: when two reachable nodes own the same node,
    when a reachable node owns a node twice, or when a reachable node owns
    the root, [check_well_formed] raises [NotWellFormed] (given more fuel
    than there are live objects). *)
Theorem shared_node_rejected (schema : node_schema) (h : object_heap)
    (fuel : nat) (T : string) (root : loc) :
  size h < fuel →
  (∃ p1 p2 q, rtc (owns h) root p1 ∧ rtc (owns h) root p2 ∧ p1 ≠ p2 ∧
              owns h p1 q ∧ owns h p2 q) ∨
  (∃ p, rtc (owns h) root p ∧ ¬ NoDup (node_owned h p)) ∨
  (∃ p, rtc (owns h) root p ∧ owns h p root) →
  ∃ msg,
    check_well_formed
      (@Maybe_Completable _ _ (generic_node schema fuel) T h (mk_Maybe (Some root)))
    = Throw (Exn NotWellFormed msg).
Proof.
  intros Hfuel Hshared.
  apply (decides_rejects _ _ (check_well_formed_decided schema h fuel T root Hfuel)).
  intros [Htree _].
  destruct (tree_shaped_single_owner h root Htree) as (Hroot & Honce & Hunique).
  destruct Hshared as [(p1 & p2 & q & Hp1 & Hp2 & Hne & Hq1 & Hq2)|
                       [(p & Hp & Htwice)|(p & Hp & Hown)]].
  - apply Hne. by apply (Hunique p1 p2 q).
  - apply Htwice. by apply Honce.
  - by apply (Hroot p).
Qed.

Lemma shared_node_rejected_witness :
  ∃ msg,
    check_well_formed
      (@Maybe_Completable _ _ (generic_node example_schema 5) "Root"
         shared_leaf_heap example_root)
    = Throw (Exn NotWellFormed msg).
Proof.
  apply (shared_node_rejected example_schema shared_leaf_heap 5 "Root" loc_R).
  - vm_compute. lia.
  - left. exists loc_A, loc_B, loc_C. split; [|split; [|split; [|split]]].
    + eapply rtc_l; [|apply rtc_refl]. vm_compute. apply list_elem_of_here.
    + eapply rtc_l; [|apply rtc_refl]. vm_compute.
      apply list_elem_of_further, list_elem_of_here.
    + discriminate.
    + vm_compute. apply list_elem_of_here.
    + vm_compute. apply list_elem_of_here.
Defined.

(** X18.  A link that leaves the tree is rejected: when a link member of a
    reachable node, optional or mandatory, points to a live node that the
    root does not reach through owning edges, [check_well_formed] raises
    [NotWellFormed]. *)
Theorem foreign_link_rejected (schema : node_schema) (h : object_heap)
    (fuel : nat) (T : string) (root p t : loc) (member : string * edge)
    (T' : string) (l : OptLink) :
  size h < fuel →
  rtc (owns h) root p →
  member ∈ Node_fields (h !!! p) →
  member.2 = OptLink_edge T' l ∨ member.2 = Link_edge T' l →
  OptLink_val l = Some t → is_Some (h !! t) →
  ¬ rtc (owns h) root t →
  ∃ msg,
    check_well_formed
      (@Maybe_Completable _ _ (generic_node schema fuel) T h (mk_Maybe (Some root)))
    = Throw (Exn NotWellFormed msg).
Proof.
  intros Hfuel Hp Hmember Hlink Hval [n Hlive] Hforeign.
  apply (decides_rejects _ _ (check_well_formed_decided schema h fuel T root Hfuel)).
  intros [_ Hsound].
  destruct (Hsound p Hp member Hmember) as [_ Hres].
  assert (¬ link_unset h l) as Hset.
  { unfold link_unset. rewrite Hval. congruence. }
  assert (¬ link_target_in (rtc (owns h) root) l) as Hout.
  { intros (t' & Hval' & Ht'). rewrite Hval in Hval'. by injection Hval' as <-. }
  destruct Hlink as [Heq|Heq]; rewrite Heq in Hres; simpl in Hres; tauto.
Qed.

Lemma foreign_link_rejected_witness :
  ∃ msg,
    check_well_formed
      (@Maybe_Completable _ _ (generic_node example_schema 4) "Root"
         foreign_link_heap example_root)
    = Throw (Exn NotWellFormed msg).
Proof.
  apply (foreign_link_rejected example_schema foreign_link_heap 4 "Root"
           loc_R loc_A loc_B ("owner", OptLink_edge "Root" (mk_OptLink (Some loc_B)))
           "Root" (mk_OptLink (Some loc_B))).
  - vm_compute. lia.
  - eapply rtc_l; [|apply rtc_refl]. vm_compute. apply list_elem_of_here.
  - vm_compute. apply list_elem_of_here.
  - left. reflexivity.
  - reflexivity.
  - vm_compute. eexists. reflexivity.
  - intros Hpath.
    apply rtc_inv in Hpath as [Heq|(x & Hx & Hpath)]; [discriminate Heq|].
    vm_compute in Hx. apply list_elem_of_singleton in Hx as ->.
    apply rtc_inv in Hpath as [Heq|(y & Hy & _)]; [discriminate Heq|].
    vm_compute in Hy. by apply elem_of_nil in Hy.
Defined.

(** X19.  With more fuel than there are live objects, [check_well_formed]
    on a root returns exactly when the owning edges below the root form a
    tree (the pre-order listing exists and repeats no node), no mandatory
    edge of a reachable node is empty, every mandatory link has a target
    and every link target is reachable from the root; in every other case
    it raises [NotWellFormed]. *)
Theorem check_well_formed_exact (schema : node_schema) (h : object_heap)
    (fuel : nat) (T : string) (root : loc) :
  size h < fuel →
  let outcome :=
    check_well_formed
      (@Maybe_Completable _ _ (generic_node schema fuel) T h (mk_Maybe (Some root))) in
  (outcome = Ok () ↔
   tree_shaped h root ∧ subtree_sound h (rtc (owns h) root) root) ∧
  (outcome = Ok () ∨ ∃ msg, outcome = Throw (Exn NotWellFormed msg)).
Proof.
  intros Hfuel outcome.
  pose proof (check_well_formed_decided schema h fuel T root Hfuel) as Hd.
  fold outcome in Hd.
  destruct outcome as [[]|[c msg]|]; simpl in Hd.
  - split; [tauto|by left].
  - destruct Hd as [Hc Hnot]. simpl in Hc. subst c.
    split; [split; [done|tauto]|]. right. by exists msg.
  - done.
Qed.

Lemma check_well_formed_exact_witness :
  let outcome :=
    check_well_formed
      (@Maybe_Completable _ _ (generic_node example_schema 4) "Root"
         scenario_heap example_root) in
  (outcome = Ok () ↔
   tree_shaped scenario_heap loc_R ∧
   subtree_sound scenario_heap (rtc (owns scenario_heap) loc_R) loc_R) ∧
  (outcome = Ok () ∨ ∃ msg, outcome = Throw (Exn NotWellFormed msg)).
Proof.
  apply (check_well_formed_exact example_schema scenario_heap 4 "Root" loc_R).
  vm_compute. lia.
Defined.

(** ** What [serialize] accepts *)

Lemma no_throw_bind {A B : Type} (r : result A) (k : A → result B) :
  no_throw r → (∀ a, r = Ok a → no_throw (k a)) → no_throw (r ≫= k).
Proof.
  intros Hr Hk e. destruct r as [a|e'|]; simpl; [by apply Hk| |done].
  by destruct (Hr e').
Qed.

Lemma subtree_writable_unfold (h : object_heap) (ids : PointerMap) (p : loc) :
  subtree_writable h ids p →
  node_writable h ids p ∧ ∀ q, q ∈ node_owned h p → subtree_writable h ids q.
Proof.
  intros Hw. split; [apply Hw, rtc_refl|].
  intros q Hq r Hr. apply Hw. by eapply rtc_l.
Qed.

Section GenericWriting.
Variable schema : node_schema.
Variable h : object_heap.

Local Abbreviation ops fuel := (generic_node schema fuel).

Lemma OptLink_writes (fuel : nat) (edge_type T : string) (l : OptLink)
    (w : MapWriter) (ids : PointerMap) :
  ¬ link_unset h l → link_target_in (registered ids) l →
  no_throw (@OptLink_serialize _ _ (ops fuel) edge_type T h l w ids).
Proof.
  intros Hset (t & Hval & [i Hi]) e.
  rewrite (link_unset_empty schema h fuel) in Hset.
  unfold OptLink_serialize, OptLink_get_ptr, lock, OptLink_empty in *.
  destruct (expired h (OptLink_val l)); [done|].
  rewrite Hval. unfold PointerMap_get, get_raw, get. by rewrite Hi.
Qed.

Lemma Maybe_writes (fuel : nat) (edge_type T : string) (e : Maybe)
    (w : MapWriter) (ids : PointerMap) :
  node_writes schema h fuel →
  (∀ q, q ∈ option_list (Maybe_val e) → registered ids q ∧ subtree_writable h ids q) →
  no_throw (@Maybe_serialize _ _ (ops fuel) edge_type T h e w ids).
Proof.
  intros Hnode Hq. unfold Maybe_serialize. destruct e as [[p|]]; simpl in *.
  - destruct (Hq p (list_elem_of_here _ _)) as [[i Hi] Hw].
    unfold PointerMap_get, get_raw, get. rewrite Hi. simpl. by apply Hnode.
  - done.
Qed.

Lemma vector_writes (fuel : nat) (T : string) (vec : list One)
    (ar : list cbor) (ids : PointerMap) :
  node_writes schema h fuel →
  (∀ q, q ∈ omap Maybe_val vec → registered ids q ∧ subtree_writable h ids q) →
  no_throw (for_each
              (λ sptr ar,
                 submap ← @Maybe_serialize _ _ (ops fuel) One_serdes_edge_type T h sptr [] ids;
                 Ok (ar ++ [cbor_map submap]))
              vec ar).
Proof.
  intros Hnode. revert ar. induction vec as [|x vec IH]; intros ar Hq; simpl; [done|].
  apply no_throw_bind.
  - apply no_throw_bind; [|done]. apply Maybe_writes; [done|].
    intros q Hx. apply Hq. destruct x as [[p|]]; simpl in *;
      [|by apply elem_of_nil in Hx].
    apply list_elem_of_singleton in Hx as ->. by left.
  - intros ar' _. apply IH. intros q Hin. apply Hq.
    destruct x as [[p|]]; simpl; [by right|done].
Qed.

Lemma edge_writes (fuel : nat) (e : edge) (w : MapWriter) (ids : PointerMap) :
  node_writes schema h fuel →
  edge_writable h ids e →
  (∀ q, q ∈ edge_owned e → subtree_writable h ids q) →
  no_throw (@edge_serialize (ops fuel) h e w ids).
Proof.
  intros Hnode Hw Hsub. destruct e as [T e|T e|T e|T e|T e|T e]; simpl in *.
  - apply Maybe_writes; [done|]. intros q Hq. split; [by apply Hw|by apply Hsub].
  - apply Maybe_writes; [done|]. intros q Hq. split; [by apply Hw|by apply Hsub].
  - unfold Any_serialize. apply no_throw_bind; [|done]. apply vector_writes; [done|].
    intros q Hq. split; [by apply Hw|by apply Hsub].
  - unfold Any_serialize. apply no_throw_bind; [|done]. apply vector_writes; [done|].
    intros q Hq. split; [by apply Hw|by apply Hsub].
  - destruct Hw. by apply OptLink_writes.
  - destruct Hw. by apply OptLink_writes.
Qed.

Lemma members_write (fuel : nat) (members : list (string * edge))
    (w : MapWriter) (ids : PointerMap) :
  node_writes schema h fuel →
  (∀ member, member ∈ members → edge_writable h ids member.2) →
  (∀ q, q ∈ flat_map (λ member : string * edge, edge_owned member.2) members →
        subtree_writable h ids q) →
  no_throw (for_each
              (λ member map,
                 submap ← @edge_serialize (ops fuel) h member.2 [] ids;
                 Ok (map ++ [(member.1, cbor_map submap)]))
              members w).
Proof.
  intros Hnode. revert w.
  induction members as [|member members IH]; intros w Hw Hsub; simpl; [done|].
  apply no_throw_bind.
  - apply no_throw_bind; [|done]. apply edge_writes; [done| |].
    + apply Hw. by left.
    + intros q Hq. apply Hsub. simpl. apply elem_of_app. by left.
  - intros w' _. apply IH.
    + intros x Hx. apply Hw. by right.
    + intros q Hq. apply Hsub. simpl. apply elem_of_app. by right.
Qed.

Lemma node_writes_all (fuel : nat) : node_writes schema h fuel.
Proof.
  induction fuel as [|fuel IH]; intros p w ids Hw; [done|].
  apply subtree_writable_unfold in Hw as [Hnode Hsub].
  by apply (members_write fuel _ _ ids IH).
Qed.

(** A sound tree whose links all have targets can be written with the
    map of Phase 1. *)
Lemma sound_linked_writable (root : loc) (ids : PointerMap) :
  (∀ q, registered ids q ↔ rtc (owns h) root q) →
  subtree_sound h (rtc (owns h) root) root →
  subtree_linked h root →
  subtree_writable h ids root.
Proof.
  intros Hreg Hsound Hlinked q Hq member Hmember.
  destruct (Hsound q Hq member Hmember) as [_ Hres].
  pose proof (Hlinked q Hq member Hmember) as Hset.
  assert (∀ c, c ∈ edge_owned member.2 → registered ids c) as Howned.
  { intros c Hc. apply Hreg. eapply rtc_r; [exact Hq|].
    unfold owns, node_owned. apply elem_of_flat_map. by exists member. }
  assert (∀ l, link_target_in (rtc (owns h) root) l →
               link_target_in (registered ids) l) as Hin.
  { intros l (t & Hval & Ht). exists t. split; [done|]. by apply Hreg. }
  destruct (member.2) as [T e|T e|T e|T e|T e|T e]; simpl in *; try done.
  - split; [done|]. destruct Hres as [?|?]; [done|by apply Hin].
  - destruct Hres. split; [done|by apply Hin].
Qed.

End GenericWriting.

(** X20.  With more fuel than there are live objects, [serialize] on a
    root writes a document exactly when [check_well_formed] accepts the
    tree and, in addition, every link of every reachable node, optional
    ones included, has a live target; in every other case it raises
    [NotWellFormed]. *)
Theorem serialize_accepts_exactly (schema : node_schema) (h : object_heap)
    (fuel : nat) (T : string) (root : loc) :
  size h < fuel →
  let outcome :=
    @serialize _ _ (generic_node schema fuel) T h (mk_Maybe (Some root)) in
  ((∃ doc, outcome = Ok doc) ↔
   tree_shaped h root ∧ subtree_sound h (rtc (owns h) root) root ∧
   subtree_linked h root) ∧
  ((∃ doc, outcome = Ok doc) ∨ ∃ msg, outcome = Throw (Exn NotWellFormed msg)).
Proof.
  intros Hfuel outcome. subst outcome.
  pose proof (check_well_formed_decided schema h fuel T root Hfuel) as Hd.
  unfold check_well_formed in Hd. unfold serialize. simpl in Hd.
  destruct (Maybe_find_reachable T h (mk_Maybe (Some root)) ∅)
    as [ids|[c msg]|] eqn:Hrun; simpl in *; [| |done].
  - destruct (find_reachable_reachable schema h fuel T root ids Hrun)
      as (Htree & Hnull & Hreg).
    destruct (Maybe_check_complete T h (mk_Maybe (Some root)) ids)
      as [[]|[c msg]|]; simpl in *; [| |done].
    + pose proof (Maybe_encoded schema h fuel Maybe_serdes_edge_type T
                    (mk_Maybe (Some root)) ∅ ids [] ids
                    (node_encoded_all schema h fuel) Hnull Hrun) as Hwrite.
      destruct (Maybe_serialize Maybe_serdes_edge_type T h (mk_Maybe (Some root)) [] ids)
        as [w|[c msg]|] eqn:Hser; simpl in *; [| |done].
      * split; [|left; eauto]. split; [|eauto].
        intros _. split; [tauto|]. split; [tauto|].
        apply Hwrite. by left.
      * subst c. split; [|right; eauto]. split; [by intros [doc ?]|].
        intros (_ & Hsound & Hlinked). exfalso.
        refine (Maybe_writes schema h fuel Maybe_serdes_edge_type T
                  (mk_Maybe (Some root)) [] ids (node_writes_all schema h fuel)
                  _ _ Hser).
        intros q ->%list_elem_of_singleton. split.
        -- apply Hreg, rtc_refl.
        -- by apply sound_linked_writable.
    + destruct Hd as [-> Hnot]. split; [|right; eauto].
      split; [by intros [doc ?]|]. intros (? & ? & _). tauto.
  - destruct Hd as [-> Hnot]. split; [|right; eauto].
    split; [by intros [doc ?]|]. intros (? & ? & _). tauto.
Qed.

Lemma serialize_accepts_exactly_witness :
  let outcome :=
    @serialize _ _ (generic_node example_schema 4) "Root" scenario_heap example_root in
  ((∃ doc, outcome = Ok doc) ↔
   tree_shaped scenario_heap loc_R ∧
   subtree_sound scenario_heap (rtc (owns scenario_heap) loc_R) loc_R ∧
   subtree_linked scenario_heap loc_R) ∧
  ((∃ doc, outcome = Ok doc) ∨ ∃ msg, outcome = Throw (Exn NotWellFormed msg)).
Proof.
  apply (serialize_accepts_exactly example_schema scenario_heap 4 "Root" loc_R).
  vm_compute. lia.
Defined.

(** ** Instances of the properties above *)

Lemma Any_extend_appends_witness :
  let self := mk_Any [mk_Maybe (Some 1%positive); mk_Maybe (Some 2%positive)] in
  let other := mk_Any [mk_Maybe None; mk_Maybe (Some 3%positive)] in
  Any_at (Any_extend self other) 1 = Any_at self 1 ∧
  Any_at (Any_extend self other) 2 = Ok (mk_Maybe None).
Proof.
  intros self other.
  destruct (Any_extend_appends self other) as (_ & Hleft & Hright & _).
  split.
  - apply Hleft. vm_compute. lia.
  - exact (Hright 0).
Defined.

Lemma OptLink_observers_agree_witness :
  let ops := generic_node example_schema 1 in
  @OptLink_empty _ _ ops scenario_heap (mk_OptLink (Some loc_C)) = true ∧
  ∃ p, @OptLink_deref _ _ ops "Root" scenario_heap (mk_OptLink (Some loc_R)) = Ok p.
Proof.
  intros ops.
  destruct (@OptLink_observers_agree _ _ ops "Root" scenario_heap
              (mk_OptLink (Some loc_C))) as (_ & _ & _ & _ & Hdead).
  destruct (@OptLink_observers_agree _ _ ops "Root" scenario_heap
              (mk_OptLink (Some loc_R))) as (_ & _ & _ & [Hlive _] & _).
  split.
  - apply (Hdead loc_C); reflexivity.
  - destruct (Hlive eq_refl) as (p & Hp & _). by exists p.
Defined.

Lemma OptLink_equal_targets_witness :
  let ops := generic_node example_schema 1 in
  @OptLink_equal _ _ ops scenario_heap OptLink_new (mk_OptLink (Some loc_C)) = true.
Proof.
  intros ops.
  apply (proj2 (@OptLink_equal_targets _ _ ops scenario_heap OptLink_new
                  (mk_OptLink (Some loc_C)))).
  left. split; reflexivity.
Defined.

Lemma link_check_complete_passes_witness :
  let ops := generic_node example_schema 1 in
  @Link_check_complete _ _ ops "Root" scenario_heap (mk_OptLink (Some loc_R))
    (<[Some loc_R := 0]> ∅) = Ok () ∧
  ∃ msg, @Link_check_complete _ _ ops "Root" scenario_heap (mk_OptLink (Some loc_R)) ∅
         = Throw (Exn NotWellFormed msg).
Proof.
  intros ops.
  destruct (@link_check_complete_passes _ _ ops "Root" scenario_heap
              (mk_OptLink (Some loc_R)) (<[Some loc_R := 0]> ∅))
    as (_ & [_ Hpass] & _).
  destruct (@link_check_complete_passes _ _ ops "Root" scenario_heap
              (mk_OptLink (Some loc_R)) ∅) as (_ & _ & Hfail & _).
  split.
  - apply Hpass. split; [reflexivity|]. vm_compute. eexists. reflexivity.
  - destruct (@Link_check_complete _ _ ops "Root" scenario_heap
                (mk_OptLink (Some loc_R)) ∅) as [[]|[c msg]|] eqn:Hrun;
      [vm_compute in Hrun; discriminate Hrun| |vm_compute in Hrun; discriminate Hrun].
    exists msg. f_equal. f_equal. apply (Hfail (Exn c msg)). by right.
Defined.

Lemma serialize_checks_first_witness :
  let ops := generic_node example_schema 4 in
  check_well_formed (@Maybe_Completable _ _ ops "Root" scenario_heap example_root)
  = Ok ().
Proof.
  intros ops.
  destruct (@serialize _ _ ops "Root" scenario_heap example_root)
    as [doc| |] eqn:Hdoc; [|vm_compute in Hdoc; discriminate Hdoc..].
  exact (proj1 (@serialize_checks_first _ _ ops "Root" scenario_heap example_root)
           doc Hdoc).
Defined.

Lemma Any_serialize_items_witness :
  let ops := generic_node example_schema 1 in
  ∃ m items,
    @Any_serialize _ _ ops "+" "Item" scenario_heap (mk_Any [mk_Maybe None]) [] ∅
    = Ok m ∧
    m = [("@T", cbor_string "+"); ("@d", cbor_array items)] ∧ length items = 1.
Proof.
  intros ops.
  destruct (@Any_serialize _ _ ops "+" "Item" scenario_heap (mk_Any [mk_Maybe None]) [] ∅)
    as [m| |] eqn:Hm; [|vm_compute in Hm; discriminate Hm..].
  destruct (@Any_serialize_items _ _ ops "+" "Item" scenario_heap
              (mk_Any [mk_Maybe None]) [] m ∅ Hm) as (items & Hdoc & Hlen & _).
  exists m, items. split; [reflexivity|]. split; [exact Hdoc | exact Hlen].
Defined.

Lemma Any_deserialize_appends_witness :
  let ops := generic_node example_schema 1 in
  let map := [("@T", cbor_string "*");
              ("@d", cbor_array [cbor_map [("@T", cbor_string "1"); ("@t", cbor_null)]])] in
  let self := mk_Any [mk_Maybe (Some loc_A)] in
  ∃ a st',
    @Any_deserialize _ _ ops "*" "Leaf" self map (∅, IdentifierMap_new) = Ok (a, st') ∧
    ∃ new, Any_vec a = Any_vec self ++ new ∧ new !! 0 = Some Maybe_new.
Proof.
  intros ops map self.
  destruct (@Any_deserialize _ _ ops "*" "Leaf" self map (∅, IdentifierMap_new))
    as [[a st']| |] eqn:Hrun; [|vm_compute in Hrun; discriminate Hrun..].
  destruct (@Any_deserialize_appends _ _ ops "*" "Leaf" self a map _ st' Hrun)
    as (items & new & Hitems & Hvec & _ & _ & Hnull).
  exists a, st'. split; [reflexivity|]. exists new. split; [exact Hvec|].
  vm_compute in Hitems. injection Hitems as <-.
  apply (Hnull 0 [("@T", cbor_string "1"); ("@t", cbor_null)]); reflexivity.
Defined.

Lemma Maybe_deserialize_registers_witness :
  let ops := generic_node example_schema 1 in
  let map := [("@T", cbor_string "?"); ("@t", cbor_null)] in
  @Maybe_deserialize _ _ ops "?" "Root" (mk_Maybe (Some loc_B)) map
    (∅, IdentifierMap_new)
  = Ok (Maybe_new, (∅, IdentifierMap_new)).
Proof.
  intros ops map.
  exact (proj1 (@Maybe_deserialize_registers _ _ ops "?" "Root"
                  (mk_Maybe (Some loc_A)) Maybe_new map (∅, IdentifierMap_new)
                  ∅ IdentifierMap_new eq_refl) (mk_Maybe (Some loc_B))).
Defined.

Lemma OptLink_deserialize_resets_witness :
  let ops := generic_node example_schema 1 in
  let st : object_heap * IdentifierMap member_ref := (∅, IdentifierMap_new) in
  ∃ m,
    @OptLink_serialize _ _ ops "@" "Root" scenario_heap (mk_OptLink (Some loc_R)) []
      (<[Some loc_R := 0]> ∅) = Ok m ∧
    OptLink_deserialize "@" "Root" (mk_OptLink (Some loc_A)) m st = Ok (OptLink_new, st).
Proof.
  intros ops st.
  destruct (@OptLink_serialize _ _ ops "@" "Root" scenario_heap
              (mk_OptLink (Some loc_R)) [] (<[Some loc_R := 0]> ∅))
    as [m| |] eqn:Hm; [|vm_compute in Hm; discriminate Hm..].
  exists m. split; [reflexivity|].
  exact (proj2 (@OptLink_deserialize_resets _ _ ops "@" "Root"
                  (mk_OptLink (Some loc_A)) [] st) _ _ _ m Hm).
Defined.

Lemma encoded_tag_is_checked_witness :
  let ops := generic_node example_schema 1 in
  let st : object_heap * IdentifierMap member_ref := (∅, IdentifierMap_new) in
  ∃ m,
    @Any_serialize _ _ ops "+" "Item" scenario_heap Many_new [] ∅ = Ok m ∧
    @Any_deserialize _ _ ops "*" "Item" Any_new m st = Throw schema_error.
Proof.
  intros ops st.
  destruct (@Any_serialize _ _ ops "+" "Item" scenario_heap Many_new [] ∅)
    as [m| |] eqn:Hm; [|vm_compute in Hm; discriminate Hm..].
  exists m. split; [reflexivity|].
  assert ("+" ≠ "*") as Hne by discriminate.
  destruct (@encoded_tag_is_checked _ _ ops "+" "*" "Item" scenario_heap ∅ m Hne
              (or_introl (ex_intro _ Many_new Hm))) as [_ Hreject].
  destruct (Hreject "Item" st) as (_ & Hany & _). exact (Hany Any_new).
Defined.

(** ** Observers of an owning edge *)

(** X21.  The observers of a [Maybe] or [One] agree: the edge is empty
    exactly when its size is 0, exactly when [get_ptr] is null and exactly
    when dereferencing raises [OutOfRange]; otherwise the size is 1 and
    dereferencing gives the object that [get_ptr] points to.  The error is
    caught as a [std::out_of_range] and not as a [RuntimeError]. *)
Theorem Maybe_observers_agree (T : string) (self : Maybe) :
  (Maybe_empty self = true ↔ Maybe_size self = 0) ∧
  (Maybe_empty self = false ↔ Maybe_size self = 1) ∧
  (Maybe_empty self = true ↔ Maybe_get_ptr self = None) ∧
  (Maybe_empty self = true ↔
   ∃ msg, Maybe_deref T self = Throw (Exn OutOfRange msg)) ∧
  (∀ p, Maybe_get_ptr self = Some p ↔ Maybe_deref T self = Ok p) ∧
  instance_of OutOfRange std_out_of_range = true ∧
  instance_of OutOfRange RuntimeError = false.
Proof.
  destruct self as [[p|]]; unfold Maybe_empty, Maybe_size, Maybe_get_ptr, Maybe_deref;
    simpl.
  - repeat split; try done; try (intros [? ?]; done).
    + by intros [= ->].
    + by intros [= ->].
  - repeat split; try done; by eexists.
Qed.

Lemma Maybe_observers_agree_witness :
  (∃ msg, Maybe_deref "Root" Maybe_new = Throw (Exn OutOfRange msg)) ∧
  Maybe_deref "Root" example_root = Ok loc_R.
Proof.
  destruct (Maybe_observers_agree "Root" Maybe_new) as (_ & _ & _ & [Hraise _] & _).
  destruct (Maybe_observers_agree "Root" example_root) as (_ & _ & _ & _ & Hderef & _).
  split.
  - apply Hraise. reflexivity.
  - apply Hderef. reflexivity.
Defined.

(** ** More on sequence edges *)

(** X22.  [add] undoes [remove]: when the element at a position inside the
    sequence is not empty, removing it and adding it again at the same
    position gives the sequence back (for the last position the second
    step appends). *)
Theorem Any_remove_add_inverse (self : Any) (x : One) (pos : Z) :
  signed_size_t_range pos →
  (0 ≤ pos < Z.of_nat (Any_size self))%Z →
  Any_at self (Z.to_nat pos) = Ok x →
  Maybe_empty x = false →
  Any_add (Any_remove self pos) x pos = self.
Proof.
  intros Hr Hpos Hat Hx. destruct self as [vec].
  unfold Any_at, vector_at, Any_size in *. simpl in *.
  destruct (vec !! Z.to_nat pos) as [y|] eqn:Hlookup; [|done].
  injection Hat as ->.
  unfold Any_remove, Any_add. rewrite Hx. unfold Any_size. simpl.
  rewrite bool_decide_eq_false_2 by lia.
  rewrite (position_test_inside _ _ Hr Hpos). simpl.
  unfold vector_erase. set (n := Z.to_nat pos) in *.
  assert (n < length vec) as Hn by lia.
  rewrite Maybe_of_ptr_get_ptr, length_delete by done.
  rewrite delete_take_drop.
  assert (length (take n vec) = n) as Htake by (rewrite length_take; lia).
  destruct (decide (pos < Z.of_nat (length vec - 1))%Z) as [Hin|Hlast].
  - rewrite (position_test_inside _ _ Hr) by lia. simpl. f_equal.
    unfold vector_emplace. fold n.
    rewrite take_app_length' by done. rewrite drop_app_length' by done.
    by apply take_drop_middle.
  - rewrite (position_test_append _ _ Hr) by lia. simpl. f_equal.
    rewrite (drop_ge vec (S n)) by lia. rewrite app_nil_r.
    rewrite <- (take_drop_middle vec n x Hlookup) at 2.
    by rewrite (drop_ge vec (S n)) by lia.
Qed.

Lemma Any_remove_add_inverse_witness :
  let self := mk_Any [mk_Maybe (Some 1%positive); mk_Maybe (Some 2%positive)] in
  Any_add (Any_remove self 0) (mk_Maybe (Some 1%positive)) 0 = self ∧
  Any_add (Any_remove self 1) (mk_Maybe (Some 2%positive)) 1 = self.
Proof.
  intros self.
  assert (signed_size_t_range 0) as Hr0 by (split; [discriminate | reflexivity]).
  assert (signed_size_t_range 1) as Hr1 by (split; [discriminate | reflexivity]).
  split.
  - apply (Any_remove_add_inverse self _ 0 Hr0); [|reflexivity..].
    split; [discriminate | reflexivity].
  - apply (Any_remove_add_inverse self _ 1 Hr1); [|reflexivity..].
    split; [discriminate | reflexivity].
Defined.

Section SequenceCompleteness.
Context {heap link_ref : Type} `{!NodeOps heap link_ref}.

Lemma check_loop_filled (T : string) (h : heap) (map : PointerMap) (vec : list One) :
  (∀ x p, x ∈ vec → Maybe_val x = Some p → node_check_complete h p map = Ok ()) →
  (Forall (λ x, Maybe_empty x = false) vec →
   for_each (λ sptr _, One_check_complete T h sptr map) vec () = Ok ()) ∧
  (¬ Forall (λ x, Maybe_empty x = false) vec →
   for_each (λ sptr _, One_check_complete T h sptr map) vec ()
   = Throw (Exn NotWellFormed ("'One' edge of type " +:+ T +:+ " is empty"))).
Proof.
  induction vec as [|x vec IH]; intros Hnodes; simpl.
  - split; [done|]. intros Hnot. exfalso. apply Hnot. constructor.
  - destruct IH as [IHok IHthrow].
    { intros y p Hy. apply Hnodes. by right. }
    destruct x as [[p|]].
    + assert (One_check_complete T h (mk_Maybe (Some p)) map = Ok ()) as ->.
      { unfold One_check_complete. simpl. apply (Hnodes (mk_Maybe (Some p))); [by left|done]. }
      simpl. split.
      * intros [_ Hrest]%Forall_cons. by apply IHok.
      * intros Hnot. apply IHthrow. intros Hrest. apply Hnot. by constructor.
    + split; [|done]. by intros [? _]%Forall_cons.
Qed.

(** X23.  Phase 2 on a sequence whose nodes are themselves complete:
    [Any::check_complete] passes exactly when no stored reference is empty
    and otherwise raises [NotWellFormed] with the message of an empty
    [One] edge; [Many::check_complete] passes exactly when, in addition,
    the sequence is not empty, and on a non-empty sequence it is the check
    of [Any]. *)
Theorem sequence_check_complete (T : string) (h : heap) (self : Any)
    (map : PointerMap) :
  (∀ x p, x ∈ Any_vec self → Maybe_val x = Some p →
          node_check_complete h p map = Ok ()) →
  (Any_check_complete T h self map = Ok () ↔ all_filled self) ∧
  (¬ all_filled self →
   Any_check_complete T h self map
   = Throw (Exn NotWellFormed ("'One' edge of type " +:+ T +:+ " is empty"))) ∧
  (Many_check_complete T h self map = Ok () ↔ Any_vec self ≠ [] ∧ all_filled self) ∧
  (Any_vec self ≠ [] →
   Many_check_complete T h self map = Any_check_complete T h self map).
Proof.
  intros Hnodes.
  destruct (check_loop_filled T h map (Any_vec self) Hnodes) as [Hok Hthrow].
  unfold Many_check_complete, Any_check_complete, Any_empty, all_filled.
  assert (for_each (λ sptr _, One_check_complete T h sptr map) (Any_vec self) () = Ok ()
          ↔ Forall (λ x, Maybe_empty x = false) (Any_vec self)) as Hiff.
  { split; [|done].
    intros Hrun. destruct (decide (Forall (λ x, Maybe_empty x = false) (Any_vec self)))
      as [|Hnot]; [done|].
    rewrite (Hthrow Hnot) in Hrun. done. }
  split; [done|]. split; [done|]. split.
  - case_bool_decide as Hnil; [split; [done|tauto]|]. rewrite Hiff. tauto.
  - intros Hne. by rewrite bool_decide_eq_false_2.
Qed.

End SequenceCompleteness.

Lemma sequence_check_complete_witness :
  let ops := generic_node example_schema 1 in
  @Any_check_complete _ _ ops "Item" scenario_heap (mk_Any [mk_Maybe None]) ∅
  = Throw (Exn NotWellFormed "'One' edge of type Item is empty").
Proof.
  intros ops.
  destruct (@sequence_check_complete _ _ ops "Item" scenario_heap
              (mk_Any [mk_Maybe None]) ∅) as (_ & Hthrow & _).
  - intros x p ->%list_elem_of_singleton. discriminate.
  - apply Hthrow. intros [Hx _]%Forall_cons. discriminate Hx.
Defined.
